(** * Network simulator of the mobile app: path search, packets, statistics

    A shallow embedding of the simulation logic of [src/app/home.tsx]
    (the simulator screen with statistics, connections, scenarios and
    saved configurations): the breadth-first [findPath], [sendPacket] with
    [updateNetworkStats], the body of the timer that advances packets,
    [handleNodePress], the topology presets and the scenarios.

    Numbers of the source are JavaScript numbers, that is binary64 floats:
    they are modelled by Rocq's primitive floats.  The only exception is
    [currentPosition], an array index that starts at 0 and grows by one, for
    which [nat] is exact.  Presentation-only state (labels, coordinates,
    visibility flags of the modals) is left out. *)

From Stdlib Require Import Floats.
From stdpp Require Import gmap strings list sorting pretty.

Set Warnings "-inexact-float,-clear-no-such-hyp".

Open Scope string_scope.
Open Scope list_scope.
Open Scope nat_scope.

(** ** Data model *)

Module NetworkNode.
Inductive kind := router | switch | host.
Inductive state := active | inactive | error.

Record t := mk {
  id : string;
  type : kind;
  connections : list string;
  status : state;
  ip : option string;
  bandwidth : option float;
  latency : option float;
  packetLoss : option float
}.
End NetworkNode.

Module Packet.
Inductive state := moving | delivered | dropped.
Inductive proto := TCP | UDP | ICMP.

Record t := mk {
  id : string;
  source : string;
  destination : string;
  data : string;
  path : list string;
  currentPosition : nat;
  status : state;
  type : proto;
  timestamp : N
}.
End Packet.

Module Connection.
Inductive state := active | inactive.

Record t := mk {
  id : string;
  from : string;
  to : string;
  bandwidth : float;
  latency : float;
  packetLoss : float;
  status : state
}.

(** [Partial<Connection>], the argument of [updateConnection]. *)
Record partial := mkPartial {
  p_bandwidth : option float;
  p_latency : option float;
  p_packetLoss : option float;
  p_status : option state
}.
End Connection.

Module NodeStat.
Record t := mk {
  packetsReceived : float;
  packetsSent : float;
  bandwidthUsage : float;
  averageLatency : float
}.
End NodeStat.

Module NetworkStats.
Record types := mkTypes { TCP : float; UDP : float; ICMP : float }.

(** [nodeStats] is a plain JavaScript object with ids as keys.  The float
    sums of [updateNetworkStats] go over its values in the order in which
    the object enumerates its own properties, so it is an association list
    of the own properties in that order (see [stat_insert]). *)
Record t := mk {
  totalPackets : float;
  successfulPackets : float;
  droppedPackets : float;
  averageLatency : float;
  bandwidthUsage : float;
  packetTypes : types;
  nodeStats : list (string * NodeStat.t)
}.
End NetworkStats.

Module PacketFilter.
(** The fields are optional: [updatePacketFilter] spreads a partial
    update over a possibly missing entry. *)
Record t := mk {
  allowedTypes : option (list Packet.proto);
  maxBandwidth : option float;
  priority : option float
}.
End PacketFilter.

Module NetworkConfig.
Record t := mk {
  nodes : list NetworkNode.t;
  connections : list Connection.t;
  packetFilters : gmap string PacketFilter.t;
  name : string;
  description : string;
  date : string
}.
End NetworkConfig.

(** ** [findPath]: breadth-first search over the link lists *)

(** [visited.has(connection)] / [visited.add] / [queue.push] of the inner
    [for] loop, for one [connection] of the current node. *)
Definition visit (path : list string)
    (acc : list (list string) * gset string) (connection : string)
    : list (list string) * gset string :=
  if decide (connection ∈ acc.2) then acc
  else (acc.1 ++ [path ++ [connection]], acc.2 ∪ {[connection]}).

(** The [while (queue.length > 0)] loop.  Each iteration shifts one path
    off the queue, so the loop is driven by a step budget; [None] means the
    budget ran out (it never does from [findPath], see
    [findPath_loop_total]), [Some []] is the final [return []]. *)
Fixpoint findPath_loop (fuel : nat) (destination : string)
    (nodes : list NetworkNode.t) (queue : list (list string))
    (visited : gset string) : option (list string) :=
  match fuel with
  | O => None
  | S fuel =>
    match queue with
    | [] => Some []
    | path :: queue =>
      (* [path[path.length - 1]]: [undefined] on an empty path, which is
         neither the destination nor the id of a node *)
      match last path with
      | None => findPath_loop fuel destination nodes queue visited
      | Some current =>
        if String.eqb current destination then Some path
        else
          match find (λ n, String.eqb (NetworkNode.id n) current) nodes with
          | None => findPath_loop fuel destination nodes queue visited
          | Some currentNode =>
            let acc := fold_left (visit path)
                         (NetworkNode.connections currentNode) (queue, visited) in
            findPath_loop fuel destination nodes acc.1 acc.2
          end
      end
    end
  end.

(** Every id that can ever be added to [visited]. *)
Definition all_connections (nodes : list NetworkNode.t) : list string :=
  concat (map NetworkNode.connections nodes).

(** The queue holds the start path and then at most one path per visited
    id, so this many iterations are enough. *)
Definition findPath_fuel (nodes : list NetworkNode.t) : nat :=
  S (S (length (all_connections nodes))).

Definition findPath (source destination : string) (nodes : list NetworkNode.t)
    : list string :=
  default [] (findPath_loop (findPath_fuel nodes) destination nodes [[source]] ∅).

(** ** Engine state of [SimulatorScreen] *)

Record State := mkState {
  nodes : list NetworkNode.t;
  packets : list Packet.t;
  selectedNode : option string;
  isSimulating : bool;
  networkStats : NetworkStats.t;
  packetType : Packet.proto;
  newNodeType : NetworkNode.kind;
  newNodeIp : string;
  connections : list Connection.t;
  selectedConnection : option string;
  packetFilters : gmap string PacketFilter.t;
  savedConfigs : list NetworkConfig.t;
  configName : string;
  configDescription : string
}.

Definition set_nodes (f : list NetworkNode.t → list NetworkNode.t) (st : State) : State :=
  mkState (f (nodes st)) (packets st) (selectedNode st) (isSimulating st)
    (networkStats st) (packetType st) (newNodeType st) (newNodeIp st)
    (connections st) (selectedConnection st) (packetFilters st)
    (savedConfigs st) (configName st) (configDescription st).

Definition set_packets (f : list Packet.t → list Packet.t) (st : State) : State :=
  mkState (nodes st) (f (packets st)) (selectedNode st) (isSimulating st)
    (networkStats st) (packetType st) (newNodeType st) (newNodeIp st)
    (connections st) (selectedConnection st) (packetFilters st)
    (savedConfigs st) (configName st) (configDescription st).

Definition set_selectedNode (v : option string) (st : State) : State :=
  mkState (nodes st) (packets st) v (isSimulating st)
    (networkStats st) (packetType st) (newNodeType st) (newNodeIp st)
    (connections st) (selectedConnection st) (packetFilters st)
    (savedConfigs st) (configName st) (configDescription st).

Definition set_isSimulating (v : bool) (st : State) : State :=
  mkState (nodes st) (packets st) (selectedNode st) v
    (networkStats st) (packetType st) (newNodeType st) (newNodeIp st)
    (connections st) (selectedConnection st) (packetFilters st)
    (savedConfigs st) (configName st) (configDescription st).

Definition set_networkStats (f : NetworkStats.t → NetworkStats.t) (st : State) : State :=
  mkState (nodes st) (packets st) (selectedNode st) (isSimulating st)
    (f (networkStats st)) (packetType st) (newNodeType st) (newNodeIp st)
    (connections st) (selectedConnection st) (packetFilters st)
    (savedConfigs st) (configName st) (configDescription st).

Definition set_packetType (v : Packet.proto) (st : State) : State :=
  mkState (nodes st) (packets st) (selectedNode st) (isSimulating st)
    (networkStats st) v (newNodeType st) (newNodeIp st)
    (connections st) (selectedConnection st) (packetFilters st)
    (savedConfigs st) (configName st) (configDescription st).

Definition set_newNodeType (v : NetworkNode.kind) (st : State) : State :=
  mkState (nodes st) (packets st) (selectedNode st) (isSimulating st)
    (networkStats st) (packetType st) v (newNodeIp st)
    (connections st) (selectedConnection st) (packetFilters st)
    (savedConfigs st) (configName st) (configDescription st).

Definition set_newNodeIp (v : string) (st : State) : State :=
  mkState (nodes st) (packets st) (selectedNode st) (isSimulating st)
    (networkStats st) (packetType st) (newNodeType st) v
    (connections st) (selectedConnection st) (packetFilters st)
    (savedConfigs st) (configName st) (configDescription st).

Definition set_connections (f : list Connection.t → list Connection.t) (st : State) : State :=
  mkState (nodes st) (packets st) (selectedNode st) (isSimulating st)
    (networkStats st) (packetType st) (newNodeType st) (newNodeIp st)
    (f (connections st)) (selectedConnection st) (packetFilters st)
    (savedConfigs st) (configName st) (configDescription st).

Definition set_selectedConnection (v : option string) (st : State) : State :=
  mkState (nodes st) (packets st) (selectedNode st) (isSimulating st)
    (networkStats st) (packetType st) (newNodeType st) (newNodeIp st)
    (connections st) v (packetFilters st)
    (savedConfigs st) (configName st) (configDescription st).

Definition set_packetFilters
    (f : gmap string PacketFilter.t → gmap string PacketFilter.t) (st : State) : State :=
  mkState (nodes st) (packets st) (selectedNode st) (isSimulating st)
    (networkStats st) (packetType st) (newNodeType st) (newNodeIp st)
    (connections st) (selectedConnection st) (f (packetFilters st))
    (savedConfigs st) (configName st) (configDescription st).

Definition set_savedConfigs (f : list NetworkConfig.t → list NetworkConfig.t) (st : State) : State :=
  mkState (nodes st) (packets st) (selectedNode st) (isSimulating st)
    (networkStats st) (packetType st) (newNodeType st) (newNodeIp st)
    (connections st) (selectedConnection st) (packetFilters st)
    (f (savedConfigs st)) (configName st) (configDescription st).

Definition set_configName (v : string) (st : State) : State :=
  mkState (nodes st) (packets st) (selectedNode st) (isSimulating st)
    (networkStats st) (packetType st) (newNodeType st) (newNodeIp st)
    (connections st) (selectedConnection st) (packetFilters st)
    (savedConfigs st) v (configDescription st).

Definition set_configDescription (v : string) (st : State) : State :=
  mkState (nodes st) (packets st) (selectedNode st) (isSimulating st)
    (networkStats st) (packetType st) (newNodeType st) (newNodeIp st)
    (connections st) (selectedConnection st) (packetFilters st)
    (savedConfigs st) (configName st) v.

(** JavaScript truthiness of a [string | null]: [null] and the empty string
    are falsy. *)
Definition truthy (o : option string) : bool :=
  match o with
  | Some s => negb (String.eqb s "")
  | None => false
  end.

(** A possibly [undefined] number used in arithmetic: [undefined] becomes
    [NaN]. *)
Definition num (o : option float) : float := default nan o.

(** ** Initial state *)

Definition initialNodes : list NetworkNode.t :=
  [ NetworkNode.mk "R1" NetworkNode.router ["S1"; "R2"] NetworkNode.active
      (Some "192.168.1.1") (Some 1000%float) (Some 5%float) (Some 0.1%float);
    NetworkNode.mk "R2" NetworkNode.router ["R1"; "S2"] NetworkNode.active
      (Some "192.168.1.2") (Some 1000%float) (Some 5%float) (Some 0.1%float);
    NetworkNode.mk "S1" NetworkNode.switch ["R1"; "H1"; "H2"] NetworkNode.active
      (Some "192.168.1.3") (Some 100%float) (Some 1%float) (Some 0.05%float);
    NetworkNode.mk "S2" NetworkNode.switch ["R2"; "H3"; "H4"] NetworkNode.active
      (Some "192.168.1.4") (Some 100%float) (Some 1%float) (Some 0.05%float);
    NetworkNode.mk "H1" NetworkNode.host ["S1"] NetworkNode.active
      (Some "192.168.1.5") (Some 10%float) (Some 0.5%float) (Some 0%float);
    NetworkNode.mk "H2" NetworkNode.host ["S1"] NetworkNode.active
      (Some "192.168.1.6") (Some 10%float) (Some 0.5%float) (Some 0%float);
    NetworkNode.mk "H3" NetworkNode.host ["S2"] NetworkNode.active
      (Some "192.168.1.7") (Some 10%float) (Some 0.5%float) (Some 0%float);
    NetworkNode.mk "H4" NetworkNode.host ["S2"] NetworkNode.active
      (Some "192.168.1.8") (Some 10%float) (Some 0.5%float) (Some 0%float) ].

Definition initialStats : NetworkStats.t :=
  NetworkStats.mk 0 0 0 0 0 (NetworkStats.mkTypes 0 0 0) [].

Definition initialState : State :=
  {| nodes := initialNodes;
     packets := [];
     selectedNode := None;
     isSimulating := false;
     networkStats := initialStats;
     packetType := Packet.TCP;
     newNodeType := NetworkNode.host;
     newNodeIp := "";
     connections := [];
     selectedConnection := None;
     packetFilters := ∅;
     savedConfigs := [];
     configName := "";
     configDescription := "" |}.

(** ** [sendPacket] and [updateNetworkStats] *)

Definition zeroStat : NodeStat.t := NodeStat.mk 0 0 0 0.

(** *** [nodeStats] as a plain object

    [nodeStats] starts as [{}], so a lookup [nodeStats[k]] that finds no own
    property goes on to [Object.prototype]; for the names below it finds a
    member of that prototype (a function, or the prototype itself for
    [__proto__]), which is truthy. *)
Definition prototype_keys : list string :=
  [ "constructor"; "hasOwnProperty"; "isPrototypeOf"; "propertyIsEnumerable";
    "toLocaleString"; "toString"; "valueOf"; "__proto__";
    "__defineGetter__"; "__defineSetter__"; "__lookupGetter__"; "__lookupSetter__" ].

Definition inherited (k : string) : bool := bool_decide (k ∈ prototype_keys).

(** The own property [k] of the object. *)
Fixpoint stat_own (k : string) (l : list (string * NodeStat.t)) : option NodeStat.t :=
  match l with
  | [] => None
  | (k', v) :: l => if String.eqb k' k then Some v else stat_own k l
  end.

(** What [nodeStats[k]] evaluates to. *)
Inductive member :=
  | entry (v : NodeStat.t)      (* an own property: a statistics record *)
  | inherited_member            (* a member of [Object.prototype] *)
  | undefined.

Definition stat_get (k : string) (l : list (string * NodeStat.t)) : member :=
  match stat_own k l with
  | Some v => entry v
  | None => if inherited k then inherited_member else undefined
  end.

(** [nodeStats[k].field = ...] and [nodeStats[k].field++] where [k] is an
    own property: the record is changed in its place.  Where [nodeStats[k]]
    is an inherited member the write lands on that member, an object of the
    runtime and not of the screen's state; what is written there is [NaN]
    ([undefined] incremented), which is falsy and is never read back into
    the state.  The list is then unchanged. *)
Fixpoint stat_alter (f : NodeStat.t → NodeStat.t) (k : string)
    (l : list (string * NodeStat.t)) : list (string * NodeStat.t) :=
  match l with
  | [] => []
  | (k', v) :: l =>
    if String.eqb k' k then (k', f v) :: l else (k', v) :: stat_alter f k l
  end.

(** Own properties are enumerated ([Object.values], [Object.keys]) with the
    array indices first, in ascending numeric order, and then the other
    names in the order of their creation.  An array index is a canonical
    numeric string (no sign, no leading zero) below [2^32 - 1]. *)
Definition digit (c : Ascii.ascii) : option N :=
  if ((48 <=? Ascii.N_of_ascii c) && (Ascii.N_of_ascii c <=? 57))%N
  then Some (Ascii.N_of_ascii c - 48)%N else None.

Fixpoint digits (acc : N) (s : string) : option N :=
  match s with
  | EmptyString => Some acc
  | String c s' =>
    match digit c with
    | Some d => digits (acc * 10 + d) s'
    | None => None
    end
  end.

Definition array_index (k : string) : option N :=
  match k with
  | EmptyString => None
  | String c rest =>
    if (Ascii.N_of_ascii c =? 48)%N
    then (if String.eqb rest "" then Some 0%N else None)
    else match digits 0 k with
         | Some n => if (n <? 4294967295)%N then Some n else None
         | None => None
         end
  end.

(** A new array index [i] goes before the first property that is no array
    index or a larger one. *)
Fixpoint stat_insert_index (i : N) (k : string) (v : NodeStat.t)
    (l : list (string * NodeStat.t)) : list (string * NodeStat.t) :=
  match l with
  | [] => [(k, v)]
  | (k', v') :: l' =>
    match array_index k' with
    | Some j =>
      if (j <? i)%N then (k', v') :: stat_insert_index i k v l' else (k, v) :: l
    | None => (k, v) :: l
    end
  end.

(** [nodeStats[k] = v] for a [k] that is no own property yet. *)
Definition stat_insert (k : string) (v : NodeStat.t)
    (l : list (string * NodeStat.t)) : list (string * NodeStat.t) :=
  match array_index k with
  | Some i => stat_insert_index i k v l
  | None => l ++ [(k, v)]
  end.

(** [if (!nodeStats[k]) nodeStats[k] = { 0, 0, 0, 0 }]: records and
    inherited members are truthy, so only an id that is neither gets a
    record. *)
Definition stat_init (k : string) (l : list (string * NodeStat.t))
    : list (string * NodeStat.t) :=
  match stat_get k l with
  | undefined => stat_insert k zeroStat l
  | _ => l
  end.

Definition bump_type (ty : Packet.proto) (c : NetworkStats.types) : NetworkStats.types :=
  match ty with
  | Packet.TCP => NetworkStats.mkTypes (NetworkStats.TCP c + 1) (NetworkStats.UDP c) (NetworkStats.ICMP c)
  | Packet.UDP => NetworkStats.mkTypes (NetworkStats.TCP c) (NetworkStats.UDP c + 1) (NetworkStats.ICMP c)
  | Packet.ICMP => NetworkStats.mkTypes (NetworkStats.TCP c) (NetworkStats.UDP c) (NetworkStats.ICMP c + 1)
  end.

Definition sent_incr (s : NodeStat.t) : NodeStat.t :=
  NodeStat.mk (NodeStat.packetsReceived s) (NodeStat.packetsSent s + 1)
    (NodeStat.bandwidthUsage s) (NodeStat.averageLatency s).

Definition received_incr (s : NodeStat.t) : NodeStat.t :=
  NodeStat.mk (NodeStat.packetsReceived s + 1) (NodeStat.packetsSent s)
    (NodeStat.bandwidthUsage s) (NodeStat.averageLatency s).

(** The two assignments under [if (connection)], in their order. *)
Definition link_account (connection : Connection.t) (s : NodeStat.t) : NodeStat.t :=
  NodeStat.mk (NodeStat.packetsReceived s) (NodeStat.packetsSent s)
    (NodeStat.bandwidthUsage s + Connection.bandwidth connection)
    ((NodeStat.averageLatency s * (NodeStat.packetsSent s - 1)
      + Connection.latency connection) / NodeStat.packetsSent s).

Definition float_of_nat (n : nat) : float :=
  PrimFloat.of_uint63 (Uint63.of_Z (Z.of_nat n)).

Definition updateNetworkStats (connections : list Connection.t)
    (packet : Packet.t) (prev : NetworkStats.t) : NetworkStats.t :=
  let source := Packet.source packet in
  let destination := Packet.destination packet in
  let totalPackets := (NetworkStats.totalPackets prev + 1)%float in
  let packetTypes := bump_type (Packet.type packet) (NetworkStats.packetTypes prev) in
  let nodeStats := stat_init source (NetworkStats.nodeStats prev) in
  let nodeStats := stat_init destination nodeStats in
  let nodeStats := stat_alter sent_incr source nodeStats in
  let nodeStats := stat_alter received_incr destination nodeStats in
  let connection :=
    find (λ c, (String.eqb (Connection.from c) source && String.eqb (Connection.to c) destination)
               || (String.eqb (Connection.from c) destination && String.eqb (Connection.to c) source))
         connections in
  let nodeStats :=
    match connection with
    | Some c => stat_alter (link_account c) source nodeStats
    | None => nodeStats
    end in
  let averageLatency :=
    (fold_left (λ acc node, acc + NodeStat.averageLatency node.2) nodeStats 0
     / float_of_nat (length nodeStats))%float in
  let bandwidthUsage :=
    fold_left (λ acc node, acc + NodeStat.bandwidthUsage node.2)%float nodeStats 0%float in
  NetworkStats.mk totalPackets (NetworkStats.successfulPackets prev)
    (NetworkStats.droppedPackets prev) averageLatency bandwidthUsage
    packetTypes nodeStats.

(** [idNow] and [tsNow] are the two readings of [Date.now()]. *)
Definition newPacket (source destination data : string) (path : list string)
    (type : Packet.proto) (idNow tsNow : N) : Packet.t :=
  Packet.mk ("p" +:+ pretty idNow) source destination data path 0
    Packet.moving type tsNow.

Definition sendPacket (source destination data : string) (idNow tsNow : N)
    (st : State) : State :=
  let path := findPath source destination (nodes st) in
  if decide (length path = 0) then st
  else
    let packet := newPacket source destination data path (packetType st) idNow tsNow in
    set_networkStats (updateNetworkStats (connections st) packet)
      (set_packets (λ prev, prev ++ [packet]) st).

(** ** The timer body: one tick *)

Definition tick_packet (packet : Packet.t) : Packet.t :=
  match Packet.status packet with
  | Packet.moving =>
    let newPosition := (Packet.currentPosition packet + 1)%nat in
    if decide (length (Packet.path packet) ≤ newPosition)%nat then
      Packet.mk (Packet.id packet) (Packet.source packet) (Packet.destination packet)
        (Packet.data packet) (Packet.path packet) (Packet.currentPosition packet)
        Packet.delivered (Packet.type packet) (Packet.timestamp packet)
    else
      Packet.mk (Packet.id packet) (Packet.source packet) (Packet.destination packet)
        (Packet.data packet) (Packet.path packet) newPosition
        (Packet.status packet) (Packet.type packet) (Packet.timestamp packet)
  | _ => packet
  end.

Definition tick (prev : list Packet.t) : list Packet.t := map tick_packet prev.

(** ** [handleNodePress] and the node handlers *)

Definition add_link (target : string) (node : NetworkNode.t) : NetworkNode.t :=
  NetworkNode.mk (NetworkNode.id node) (NetworkNode.type node)
    (NetworkNode.connections node ++ [target]) (NetworkNode.status node)
    (NetworkNode.ip node) (NetworkNode.bandwidth node) (NetworkNode.latency node)
    (NetworkNode.packetLoss node).

Definition link_nodes (selected nodeId : string) (prev : list NetworkNode.t)
    : list NetworkNode.t :=
  map (λ node,
         if String.eqb (NetworkNode.id node) selected then add_link nodeId node
         else if String.eqb (NetworkNode.id node) nodeId then add_link selected node
         else node) prev.

Definition handleNodePress (nodeId : string) (st : State) : State :=
  match selectedNode st with
  | Some selected =>
    if truthy (Some selected) then
      let st' :=
        if String.eqb selected nodeId then st
        else
          let newConnection :=
            Connection.mk ("C" +:+ pretty (length (connections st) + 1)%nat)
              selected nodeId 100 1 0.05 Connection.active in
          set_nodes (link_nodes selected nodeId)
            (set_connections (λ prev, prev ++ [newConnection]) st) in
      set_selectedNode None st'
    else set_selectedNode (Some nodeId) st
  | None => set_selectedNode (Some nodeId) st
  end.

(** The four inputs of the node configuration modal: each maps over the
    nodes and changes those whose id is the selected one.  The number is the
    already parsed input ([parseInt(text) || 0], [parseFloat(text) || 0]). *)
Definition is_selected (st : State) (n : NetworkNode.t) : bool :=
  bool_decide (selectedNode st = Some (NetworkNode.id n)).

Definition configure (upd : NetworkNode.t → NetworkNode.t) (st : State) : State :=
  set_nodes (map (λ n, if is_selected st n then upd n else n)) st.

Definition with_ip (text : string) (n : NetworkNode.t) : NetworkNode.t :=
  NetworkNode.mk (NetworkNode.id n) (NetworkNode.type n) (NetworkNode.connections n)
    (NetworkNode.status n) (Some text) (NetworkNode.bandwidth n)
    (NetworkNode.latency n) (NetworkNode.packetLoss n).

Definition with_bandwidth (v : float) (n : NetworkNode.t) : NetworkNode.t :=
  NetworkNode.mk (NetworkNode.id n) (NetworkNode.type n) (NetworkNode.connections n)
    (NetworkNode.status n) (NetworkNode.ip n) (Some v)
    (NetworkNode.latency n) (NetworkNode.packetLoss n).

Definition with_latency (v : float) (n : NetworkNode.t) : NetworkNode.t :=
  NetworkNode.mk (NetworkNode.id n) (NetworkNode.type n) (NetworkNode.connections n)
    (NetworkNode.status n) (NetworkNode.ip n) (NetworkNode.bandwidth n)
    (Some v) (NetworkNode.packetLoss n).

Definition with_packetLoss (v : float) (n : NetworkNode.t) : NetworkNode.t :=
  NetworkNode.mk (NetworkNode.id n) (NetworkNode.type n) (NetworkNode.connections n)
    (NetworkNode.status n) (NetworkNode.ip n) (NetworkNode.bandwidth n)
    (NetworkNode.latency n) (Some v).

Definition with_status (s : NetworkNode.state) (n : NetworkNode.t) : NetworkNode.t :=
  NetworkNode.mk (NetworkNode.id n) (NetworkNode.type n) (NetworkNode.connections n)
    s (NetworkNode.ip n) (NetworkNode.bandwidth n)
    (NetworkNode.latency n) (NetworkNode.packetLoss n).

Definition default_bandwidth (k : NetworkNode.kind) : float :=
  match k with
  | NetworkNode.router => 1000 | NetworkNode.switch => 100 | NetworkNode.host => 10
  end.

Definition default_latency (k : NetworkNode.kind) : float :=
  match k with
  | NetworkNode.router => 5 | NetworkNode.switch => 1 | NetworkNode.host => 0.5
  end.

Definition default_packetLoss (k : NetworkNode.kind) : float :=
  match k with
  | NetworkNode.router => 0.1 | NetworkNode.switch => 0.05 | NetworkNode.host => 0
  end.

(** The "Add Node" button. *)
Definition addNode (st : State) : State :=
  let newNode :=
    NetworkNode.mk ("N" +:+ pretty (length (nodes st) + 1)%nat) (newNodeType st) []
      NetworkNode.active (Some (newNodeIp st))
      (Some (default_bandwidth (newNodeType st)))
      (Some (default_latency (newNodeType st)))
      (Some (default_packetLoss (newNodeType st))) in
  set_newNodeIp "" (set_nodes (λ prev, prev ++ [newNode]) st).

Definition merge_connection (updates : Connection.partial) (conn : Connection.t)
    : Connection.t :=
  Connection.mk (Connection.id conn) (Connection.from conn) (Connection.to conn)
    (default (Connection.bandwidth conn) (Connection.p_bandwidth updates))
    (default (Connection.latency conn) (Connection.p_latency updates))
    (default (Connection.packetLoss conn) (Connection.p_packetLoss updates))
    (default (Connection.status conn) (Connection.p_status updates)).

(** Called from the connection modal with [selectedConnection] as id. *)
Definition updateConnection (connectionId : option string)
    (updates : Connection.partial) (st : State) : State :=
  set_connections
    (map (λ conn, if bool_decide (connectionId = Some (Connection.id conn))
                  then merge_connection updates conn else conn)) st.

Definition merge_filter (updates : PacketFilter.t) (old : option PacketFilter.t)
    : PacketFilter.t :=
  PacketFilter.mk
    (match PacketFilter.allowedTypes updates with
     | Some v => Some v | None => old ≫= PacketFilter.allowedTypes end)
    (match PacketFilter.maxBandwidth updates with
     | Some v => Some v | None => old ≫= PacketFilter.maxBandwidth end)
    (match PacketFilter.priority updates with
     | Some v => Some v | None => old ≫= PacketFilter.priority end).

Definition updatePacketFilter (nodeId : string) (updates : PacketFilter.t)
    (st : State) : State :=
  set_packetFilters (λ prev, <[nodeId := merge_filter updates (prev !! nodeId)]> prev) st.

(** ** Topology presets ([networkTopologies]) *)

Inductive Topology := star | mesh | bus.

Definition with_connections (c : list string) (n : NetworkNode.t) : NetworkNode.t :=
  NetworkNode.mk (NetworkNode.id n) (NetworkNode.type n) c (NetworkNode.status n)
    (NetworkNode.ip n) (NetworkNode.bandwidth n) (NetworkNode.latency n)
    (NetworkNode.packetLoss n).

Definition id_prefix (k : NetworkNode.kind) : string :=
  match k with
  | NetworkNode.router => "R" | NetworkNode.switch => "S" | NetworkNode.host => "H"
  end.

Definition hub : NetworkNode.t :=
  NetworkNode.mk "R1" NetworkNode.router [] NetworkNode.active
    (Some "192.168.1.1") (Some 1000%float) (Some 5%float) (Some 0.1%float).

(** The node pushed by [nodeTypes.forEach((type, index) => ...)] of the star
    and bus presets. *)
Definition spoke (index : nat) (type : NetworkNode.kind) : NetworkNode.t :=
  NetworkNode.mk (id_prefix type +:+ pretty (index + 1)%nat) type ["R1"]
    NetworkNode.active (Some ("192.168.1." +:+ pretty (index + 2)%nat))
    (Some (default_bandwidth type)) (Some (default_latency type))
    (Some (default_packetLoss type)).

(** [nodes[0].connections = nodes.slice(1).map(n => n.id)] *)
Definition wire_hub (nodes : list NetworkNode.t) : list NetworkNode.t :=
  match nodes with
  | [] => []
  | first :: rest => with_connections (map NetworkNode.id rest) first :: rest
  end.

Definition star_create : list NetworkNode.t :=
  let nodeTypes := [NetworkNode.switch; NetworkNode.switch; NetworkNode.host;
                    NetworkNode.host; NetworkNode.host; NetworkNode.host] in
  wire_hub (hub :: imap spoke nodeTypes).

Definition bus_create : list NetworkNode.t :=
  let nodeTypes := [NetworkNode.switch; NetworkNode.host; NetworkNode.switch;
                    NetworkNode.host; NetworkNode.host; NetworkNode.host] in
  wire_hub (hub :: imap spoke nodeTypes).

Definition mesh_node (index : nat) (type : NetworkNode.kind) : NetworkNode.t :=
  NetworkNode.mk (id_prefix type +:+ pretty (index + 1)%nat) type []
    NetworkNode.active (Some ("192.168.1." +:+ pretty (index + 1)%nat))
    (Some (default_bandwidth type)) (Some (default_latency type))
    (Some (default_packetLoss type)).

(** [nodes.filter((_, j) => i !== j)] *)
Definition others {A} (i : nat) (l : list A) : list A := take i l ++ drop (S i) l.

Definition mesh_create : list NetworkNode.t :=
  let nodeTypes := [NetworkNode.router; NetworkNode.router; NetworkNode.switch;
                    NetworkNode.switch; NetworkNode.host; NetworkNode.host] in
  let nodes := imap mesh_node nodeTypes in
  imap (λ i node, with_connections (map NetworkNode.id (others i nodes)) node) nodes.

Definition create (topology : Topology) : list NetworkNode.t :=
  match topology with
  | star => star_create
  | mesh => mesh_create
  | bus => bus_create
  end.

Definition applyTopology (topology : Topology) (st : State) : State :=
  set_connections (λ _, []) (set_nodes (λ _, create topology) st).

(** ** Scenarios ([simulationScenarios]) *)

Inductive Scenario := normal | congestion | failure | security.

Definition conn_with_status (s : Connection.state) (c : Connection.t) : Connection.t :=
  Connection.mk (Connection.id c) (Connection.from c) (Connection.to c)
    (Connection.bandwidth c) (Connection.latency c) (Connection.packetLoss c) s.

Definition congest_node (node : NetworkNode.t) : NetworkNode.t :=
  NetworkNode.mk (NetworkNode.id node) (NetworkNode.type node)
    (NetworkNode.connections node) NetworkNode.active (NetworkNode.ip node)
    (NetworkNode.bandwidth node)
    (Some (num (NetworkNode.latency node) * 3)%float)
    (Some (num (NetworkNode.packetLoss node) * 2)%float).

Definition congest_connection (conn : Connection.t) : Connection.t :=
  Connection.mk (Connection.id conn) (Connection.from conn) (Connection.to conn)
    (Connection.bandwidth conn * 0.5) (Connection.latency conn * 3)
    (Connection.packetLoss conn * 2) Connection.active.

Definition secure_node (node : NetworkNode.t) : NetworkNode.t :=
  NetworkNode.mk (NetworkNode.id node) (NetworkNode.type node)
    (NetworkNode.connections node) NetworkNode.active (NetworkNode.ip node)
    (Some (num (NetworkNode.bandwidth node) * 0.7)%float)
    (NetworkNode.latency node) (NetworkNode.packetLoss node).

Definition secure_connection (conn : Connection.t) : Connection.t :=
  Connection.mk (Connection.id conn) (Connection.from conn) (Connection.to conn)
    (Connection.bandwidth conn * 0.7) (Connection.latency conn)
    (Connection.packetLoss conn) Connection.active.

Definition secure_filter (node : NetworkNode.t) : PacketFilter.t :=
  PacketFilter.mk
    (Some match NetworkNode.type node with
          | NetworkNode.router => [Packet.TCP; Packet.UDP; Packet.ICMP]
          | NetworkNode.switch => [Packet.TCP; Packet.UDP]
          | NetworkNode.host => [Packet.TCP]
          end)
    (Some (num (NetworkNode.bandwidth node) * 0.7)%float)
    (Some match NetworkNode.type node with
          | NetworkNode.router => 3%float
          | NetworkNode.switch => 2%float
          | NetworkNode.host => 1%float
          end).

Definition is_critical (n : NetworkNode.t) : bool :=
  match NetworkNode.type n with
  | NetworkNode.router | NetworkNode.switch => true
  | NetworkNode.host => false
  end.

(** What a scenario's [setup] returns. *)
Record Setup := mkSetup {
  setup_nodes : list NetworkNode.t;
  setup_connections : list Connection.t;
  setup_packetFilters : gmap string PacketFilter.t
}.

(** [shuffle] stands for [sort(() => Math.random() - 0.5)]: the order in
    which the random comparator leaves the critical nodes.  Only the failure
    scenario reads it. *)
Definition setup (scenario : Scenario)
    (shuffle : list NetworkNode.t → list NetworkNode.t)
    (nodes : list NetworkNode.t) (connections : list Connection.t) : Setup :=
  match scenario with
  | normal =>
    mkSetup (map (with_status NetworkNode.active) nodes)
      (map (conn_with_status Connection.active) connections) ∅
  | congestion =>
    mkSetup (map congest_node nodes) (map congest_connection connections) ∅
  | failure =>
    let criticalNodes := filter (λ n, is_critical n = true) nodes in
    let failedNodes := take 2 (shuffle criticalNodes) in
    mkSetup
      (map (λ node,
              with_status
                (if existsb (λ n, String.eqb (NetworkNode.id n) (NetworkNode.id node)) failedNodes
                 then NetworkNode.inactive else NetworkNode.active) node) nodes)
      (map (λ conn,
              conn_with_status
                (if existsb (λ n, String.eqb (NetworkNode.id n) (Connection.from conn)
                                  || String.eqb (NetworkNode.id n) (Connection.to conn)) failedNodes
                 then Connection.inactive else Connection.active) conn) connections)
      ∅
  | security =>
    mkSetup (map secure_node nodes) (map secure_connection connections)
      (fold_left (λ filters node, <[NetworkNode.id node := secure_filter node]> filters)
         nodes ∅)
  end.

Definition applyScenario (scenario : Scenario)
    (shuffle : list NetworkNode.t → list NetworkNode.t) (st : State) : State :=
  let r := setup scenario shuffle (nodes st) (connections st) in
  set_packetFilters (λ _, setup_packetFilters r)
    (set_connections (λ _, setup_connections r)
       (set_nodes (λ _, setup_nodes r) st)).

(** ** Saved configurations *)

Definition saveCurrentConfig (date : string) (st : State) : State :=
  let newConfig :=
    NetworkConfig.mk (nodes st) (connections st) (packetFilters st)
      (configName st) (configDescription st) date in
  set_configDescription ""
    (set_configName "" (set_savedConfigs (λ prev, prev ++ [newConfig]) st)).

Definition loadConfig (config : NetworkConfig.t) (st : State) : State :=
  set_packetFilters (λ _, NetworkConfig.packetFilters config)
    (set_connections (λ _, NetworkConfig.connections config)
       (set_nodes (λ _, NetworkConfig.nodes config) st)).

Definition deleteConfig (configName : string) (st : State) : State :=
  set_savedConfigs
    (filter (λ c, NetworkConfig.name c ≠ configName)) st.

(** ** Events of the screen and the transition function *)

Inductive Event :=
  | PressNode (nodeId : string)            (* simulation area: [handleNodePress] *)
  | OpenNode (nodeId : string)             (* node view: [setSelectedNode(node.id)] *)
  | PressConnection (connectionId : string)
  | EditConnection (updates : Connection.partial)
  | EditPacketFilter (nodeId : string) (updates : PacketFilter.t)
  | Send (source destination data : string) (idNow tsNow : N)
  | Tick                                   (* the interval fires *)
  | ToggleSimulation
  | ChoosePacketType (type : Packet.proto)
  | EditNodeIp (text : string)
  | EditNodeBandwidth (v : float)
  | EditNodeLatency (v : float)
  | EditNodePacketLoss (v : float)
  | ChooseNewNodeType (type : NetworkNode.kind)
  | EditNewNodeIp (text : string)
  | AddNode
  | ApplyTopology (topology : Topology)
  | ApplyScenario (scenario : Scenario) (shuffle : list NetworkNode.t → list NetworkNode.t)
  | EditConfigName (text : string)
  | EditConfigDescription (text : string)
  | SaveConfig (date : string)
  | LoadConfig (index : nat)               (* "Load" on the [index]-th saved entry *)
  | DeleteConfig (index : nat).            (* "Delete" on the [index]-th saved entry *)

Definition step (st : State) (e : Event) : State :=
  match e with
  | PressNode nodeId => handleNodePress nodeId st
  | OpenNode nodeId => set_selectedNode (Some nodeId) st
  | PressConnection connectionId => set_selectedConnection (Some connectionId) st
  | EditConnection updates => updateConnection (selectedConnection st) updates st
  | EditPacketFilter nodeId updates => updatePacketFilter nodeId updates st
  | Send source destination data idNow tsNow =>
    sendPacket source destination data idNow tsNow st
  | Tick =>
    (* the interval exists only while [isSimulating] *)
    if isSimulating st then set_packets tick st else st
  | ToggleSimulation => set_isSimulating (negb (isSimulating st)) st
  | ChoosePacketType type => set_packetType type st
  | EditNodeIp text => configure (with_ip text) st
  | EditNodeBandwidth v => configure (with_bandwidth v) st
  | EditNodeLatency v => configure (with_latency v) st
  | EditNodePacketLoss v => configure (with_packetLoss v) st
  | ChooseNewNodeType type => set_newNodeType type st
  | EditNewNodeIp text => set_newNodeIp text st
  | AddNode => addNode st
  | ApplyTopology topology => applyTopology topology st
  | ApplyScenario scenario shuffle => applyScenario scenario shuffle st
  | EditConfigName text => set_configName text st
  | EditConfigDescription text => set_configDescription text st
  | SaveConfig date => saveCurrentConfig date st
  | LoadConfig index =>
    match savedConfigs st !! index with
    | Some config => loadConfig config st
    | None => st
    end
  | DeleteConfig index =>
    match savedConfigs st !! index with
    | Some config => deleteConfig (NetworkConfig.name config) st
    | None => st
    end
  end.

Definition run (st : State) (es : list Event) : State := fold_left step es st.

(** States the screen can be in. *)
Definition reachable_state (st : State) : Prop := ∃ es, st = run initialState es.

(** ** Vocabulary of the path claims *)

(** The link list [findPath] reads for an id: the [connections] of the first
    node with that id, nothing when there is no such node. *)
Definition links (nodes : list NetworkNode.t) (current : string) : list string :=
  match find (λ n, String.eqb (NetworkNode.id n) current) nodes with
  | Some n => NetworkNode.connections n
  | None => []
  end.

(** Sequences of ids that start at [s] and follow the link lists. *)
Inductive walk (nodes : list NetworkNode.t) (s : string) : list string → Prop :=
  | walk_start : walk nodes s [s]
  | walk_hop p u v :
      walk nodes s p → last p = Some u → v ∈ links nodes u →
      walk nodes s (p ++ [v]).

Definition connected (nodes : list NetworkNode.t) (s d : string) : Prop :=
  ∃ w, walk nodes s w ∧ last w = Some d.

(** Number of hops of a sequence of nodes. *)
Definition hops (p : list string) : nat := length p - 1.

(** [k] is the hop-count distance from [s] to [d]. *)
Definition distance (nodes : list NetworkNode.t) (s d : string) (k : nat) : Prop :=
  (∃ w, walk nodes s w ∧ last w = Some d ∧ hops w = k) ∧
  (∀ w, walk nodes s w → last w = Some d → k ≤ hops w).

(** Position of the first occurrence of [x] in a link list. *)
Fixpoint index_of (x : string) (l : list string) : nat :=
  match l with
  | [] => 0
  | y :: l => if decide (x = y) then 0 else S (index_of x l)
  end.

(** [p] is discovered before [q]: the two agree up to some node [u], and
    there [p] continues with a neighbour that stands earlier in the link
    list of [u] than the one [q] continues with. *)
Definition earlier (nodes : list NetworkNode.t) (p q : list string) : Prop :=
  ∃ i u v v',
    take (S i) p = take (S i) q ∧ p !! i = Some u ∧
    p !! S i = Some v ∧ q !! S i = Some v' ∧
    index_of v (links nodes u) < index_of v' (links nodes u).

(** The same order, by recursion on the sequences. *)
Inductive lexlt (nodes : list NetworkNode.t) : list string → list string → Prop :=
  | lexlt_here u v v' p q :
      index_of v (links nodes u) < index_of v' (links nodes u) →
      lexlt nodes (u :: v :: p) (u :: v' :: q)
  | lexlt_next u p q : lexlt nodes p q → lexlt nodes (u :: p) (u :: q).

(** Order in which the search enqueues paths: by length, then by [lexlt]. *)
Definition before (nodes : list NetworkNode.t) (p q : list string) : Prop :=
  length p < length q ∨ (length p = length q ∧ lexlt nodes p q).

Definition not_after (nodes : list NetworkNode.t) (p q : list string) : Prop :=
  p = q ∨ before nodes p q.

(** The connections of a link list that one pass of the inner loop
    enqueues, given the ids visited so far. *)
Fixpoint fresh (visited : gset string) (l : list string) : list string :=
  match l with
  | [] => []
  | c :: l =>
    if decide (c ∈ visited) then fresh visited l
    else c :: fresh (visited ∪ {[c]}) l
  end.

(** What holds between the iterations of the [while] loop of
    [findPath source destination nodes]: [closed] are the paths already
    shifted off the queue. *)
Record bfs_inv (nodes : list NetworkNode.t) (s d : string)
    (closed queue : list (list string)) (visited : gset string) : Prop := {
  inv_walk : Forall (walk nodes s) (closed ++ queue);
  inv_sorted : StronglySorted (before nodes) (closed ++ queue);
  inv_start : [s] ∈ closed ++ queue;
  inv_parent : ∀ q, q ∈ closed ++ queue →
    q = [s] ∨ ∃ r c, q = r ++ [c] ∧ r ∈ closed;
  inv_visited : ∀ v, v ∈ visited →
    ∃ f, f ∈ closed ++ queue ∧ f ≠ [s] ∧ last f = Some v;
  inv_done : ∀ p u, p ∈ closed → last p = Some u →
    u ≠ d ∧ ∀ c, c ∈ links nodes u →
      ∃ f, f ∈ closed ++ queue ∧ last f = Some c ∧ not_after nodes f (p ++ [c])
}.

(** ** Vocabulary of the packet claims *)

(** Everything of a packet except its position and its status. *)
Definition same_route (p q : Packet.t) : Prop :=
  Packet.id p = Packet.id q ∧ Packet.source p = Packet.source q ∧
  Packet.destination p = Packet.destination q ∧ Packet.data p = Packet.data q ∧
  Packet.path p = Packet.path q ∧ Packet.type p = Packet.type q ∧
  Packet.timestamp p = Packet.timestamp q.

(** [packet.path[packet.currentPosition]] is defined. *)
Definition valid_position (pkt : Packet.t) : Prop :=
  0 ≤ Packet.currentPosition pkt ≤ length (Packet.path pkt) - 1 ∧
  is_Some (Packet.path pkt !! Packet.currentPosition pkt).

(** What every packet made by [sendPacket] satisfies from then on. *)
Definition packet_ok (pkt : Packet.t) : Prop :=
  Packet.currentPosition pkt < length (Packet.path pkt) ∧
  Packet.status pkt ≠ Packet.dropped ∧
  (Packet.status pkt = Packet.delivered →
   Packet.currentPosition pkt = length (Packet.path pkt) - 1).

(** A status change [a] to [b] that the state machine of a packet allows. *)
Definition status_step (a b : Packet.state) : Prop :=
  a = b ∨ (a = Packet.moving ∧ b = Packet.delivered).

Definition is_send (e : Event) : bool :=
  match e with Send _ _ _ _ _ => true | _ => false end.

(** [nodes.some(n => n.id === u)] *)
Definition has_node (nodes : list NetworkNode.t) (u : string) : bool :=
  existsb (λ n, String.eqb (NetworkNode.id n) u) nodes.

(** The [packetsReceived] counter that the state holds for [k]: that of the
    record [nodeStats[k]], 0 while [k] has no record. *)
Definition received (stats : NetworkStats.t) (k : string) : float :=
  NodeStat.packetsReceived (default zeroStat (stat_own k (NetworkStats.nodeStats stats))).

(** ** Example topologies *)

(** Two shortest paths from A to D: through B, listed first, and through C. *)
Definition diamond : list NetworkNode.t :=
  [ NetworkNode.mk "A" NetworkNode.host ["B"; "C"] NetworkNode.active None None None None;
    NetworkNode.mk "B" NetworkNode.switch ["A"; "D"] NetworkNode.active None None None None;
    NetworkNode.mk "C" NetworkNode.switch ["A"; "D"] NetworkNode.active None None None None;
    NetworkNode.mk "D" NetworkNode.host ["B"; "C"] NetworkNode.active None None None None ].

(** The line A - B - C: two hosts joined by a switch. *)
Definition lineNodes : list NetworkNode.t :=
  [ NetworkNode.mk "A" NetworkNode.host ["B"] NetworkNode.active None None None None;
    NetworkNode.mk "B" NetworkNode.switch ["A"; "C"] NetworkNode.active None None None None;
    NetworkNode.mk "C" NetworkNode.host ["B"] NetworkNode.active None None None None ].

(** The screen showing the line, with the simulation started. *)
Definition lineState : State :=
  set_isSimulating true (set_nodes (λ _, lineNodes) initialState).

(** ** Vocabulary of the further properties *)

(** Consecutive ids of a sequence follow the link lists. *)
Fixpoint linked (nodes : list NetworkNode.t) (p : list string) : Prop :=
  match p with
  | u :: (v :: _) as rest => v ∈ links nodes u ∧ linked nodes rest
  | _ => True
  end.

(** Events after which some route may differ: the ones that add links or
    replace the node list. *)
Definition rewires (e : Event) : bool :=
  match e with
  | PressNode _ | ApplyTopology _ | LoadConfig _ => true
  | _ => false
  end.

(** [renderPacket]: the two nodes between which the packet is drawn, [None]
    when the function returns [null].  (The position between them is an
    interpolation over [Date.now()] and is not modelled.) *)
Definition renderPacket (nodes : list NetworkNode.t) (packet : Packet.t)
    : option (NetworkNode.t * NetworkNode.t) :=
  match Packet.status packet with
  | Packet.moving =>
    let currentPathIndex := Packet.currentPosition packet in
    let nextPathIndex := Packet.currentPosition packet + 1 in
    if decide (length (Packet.path packet) ≤ nextPathIndex) then None
    else
      match Packet.path packet !! currentPathIndex, Packet.path packet !! nextPathIndex with
      | Some a, Some b =>
        match find (λ n, String.eqb (NetworkNode.id n) a) nodes,
              find (λ n, String.eqb (NetworkNode.id n) b) nodes with
        | Some currentNode, Some nextNode => Some (currentNode, nextNode)
        | _, _ => None
        end
      | _, _ => None
      end
  | _ => None
  end.

(** Events that set the node list and the connection list as a whole: a
    topology preset and the loading of a saved configuration. *)
Definition replaces_graph (e : Event) : bool :=
  match e with
  | ApplyTopology _ | LoadConfig _ => true
  | _ => false
  end.

(** The two ends of a connection. *)
Definition ends (c : Connection.t) : string * string :=
  (Connection.from c, Connection.to c).

(** Events that read or write the saved configurations. *)
Definition touches_configs (e : Event) : bool :=
  match e with
  | SaveConfig _ | LoadConfig _ | DeleteConfig _ => true
  | _ => false
  end.

(** The connections carry the ids C1, C2, ... in list order. *)
Definition numbered (cs : list Connection.t) : Prop :=
  ∀ i c, cs !! i = Some c → Connection.id c = "C" +:+ pretty (i + 1).

(** The id lists of the initial topology and of the three presets. *)
Definition preset_ids : list (list string) :=
  [ map NetworkNode.id initialNodes; map NetworkNode.id (create star);
    map NetworkNode.id (create mesh); map NetworkNode.id (create bus) ].

(** The ids that [m] presses of "Add Node" give after [n] nodes. *)
Definition added_ids (n m : nat) : list string :=
  map (λ i, "N" +:+ pretty (n + i + 1)) (seq 0 m).

(** A node list as the screen builds it: a preset, then added nodes. *)
Definition grown (ns : list NetworkNode.t) : Prop :=
  ∃ base m, base ∈ preset_ids ∧
            map NetworkNode.id ns = base ++ added_ids (length base) m.

Definition starts_with_N (x : string) : bool := String.prefix "N" x.

(** The [packetsSent] counter that the state holds for [k]: that of the
    record [nodeStats[k]], 0 while [k] has no record. *)
Definition sent (stats : NetworkStats.t) (k : string) : float :=
  NodeStat.packetsSent (default zeroStat (stat_own k (NetworkStats.nodeStats stats))).

(** [Object.keys(nodeStats)]: the ids that have a record. *)
Definition stat_keys (stats : NetworkStats.t) : list string :=
  map fst (NetworkStats.nodeStats stats).

Definition deletes (e : Event) : bool :=
  match e with DeleteConfig _ => true | _ => false end.

#[global] Instance proto_eq_dec : EqDecision Packet.proto.
Proof. solve_decision. Defined.

(** The type buttons of the packet filter modal: [includes] / [filter] /
    spread, then [updatePacketFilter(node.id, { allowedTypes: newTypes })]. *)
Definition toggleAllowedType (nodeId : string) (type : Packet.proto) (st : State)
    : State :=
  let currentTypes :=
    default [] (packetFilters st !! nodeId ≫= PacketFilter.allowedTypes) in
  let newTypes :=
    if decide (type ∈ currentTypes) then filter (λ t, t ≠ type) currentTypes
    else currentTypes ++ [type] in
  updatePacketFilter nodeId (PacketFilter.mk (Some newTypes) None None) st.

(** ** The tutorial screen ([TutorialScreen]) *)

Module Tutorial.
Record t := mk {
  currentStep : nat;
  showAnswer : bool;
  userAnswer : string
}.
End Tutorial.

(** [handleNext] for a tutorial of [steps] steps; the boolean tells that
    [router.back()] was called instead of a state change. *)
Definition handleNext (steps : nat) (t : Tutorial.t) : Tutorial.t * bool :=
  if decide (Z.of_nat (Tutorial.currentStep t) < Z.of_nat steps - 1)%Z
  then (Tutorial.mk (Tutorial.currentStep t + 1) false "", false)
  else (t, true).

Definition handlePrevious (t : Tutorial.t) : Tutorial.t :=
  if decide (0 < Tutorial.currentStep t)
  then Tutorial.mk (Tutorial.currentStep t - 1) false ""
  else t.

#[global] Instance node_state_eq_dec : EqDecision NetworkNode.state.
Proof. solve_decision. Defined.

#[global] Instance connection_state_eq_dec : EqDecision Connection.state.
Proof. solve_decision. Defined.

(** The nodes the failure scenario picks: [criticalNodes.sort(...).slice(0, 2)]. *)
Definition failedNodes (shuffle : list NetworkNode.t → list NetworkNode.t)
    (nodes : list NetworkNode.t) : list NetworkNode.t :=
  take 2 (shuffle (filter (λ n, is_critical n = true) nodes)).

(** ** The quiz screen ([QuizScreen]) *)

(** No quiz of the file sets [timeLimit], so the countdown effect never
    starts a timer; the state below is what the handlers change. *)
Module Quiz.
Record question := mkQuestion {
  options : list string;
  correctAnswer : string
}.

Record t := mk {
  currentQuestion : nat;
  selectedAnswer : option string;
  showExplanation : bool;
  score : nat;
  quizCompleted : bool
}.

Inductive event :=
  | PressOption (option : string)
  | PressNext
  | PressRestart.
End Quiz.

Definition quizStart : Quiz.t := Quiz.mk 0 None false 0 false.

(** [answer === question?.correctAnswer] is false when there is no
    question at the index. *)
Definition handleAnswer (questions : list Quiz.question) (answer : string)
    (q : Quiz.t) : Quiz.t :=
  Quiz.mk (Quiz.currentQuestion q) (Some answer) true
    (if bool_decide (Quiz.correctAnswer <$> questions !! Quiz.currentQuestion q
                     = Some answer)
     then Quiz.score q + 1 else Quiz.score q)
    (Quiz.quizCompleted q).

Definition handleNextQuestion (questions : list Quiz.question) (q : Quiz.t)
    : Quiz.t :=
  if decide (Z.of_nat (Quiz.currentQuestion q) < Z.of_nat (length questions) - 1)%Z
  then Quiz.mk (Quiz.currentQuestion q + 1) None false (Quiz.score q)
         (Quiz.quizCompleted q)
  else Quiz.mk (Quiz.currentQuestion q) (Quiz.selectedAnswer q)
         (Quiz.showExplanation q) (Quiz.score q) true.

Definition handleRestart (q : Quiz.t) : Quiz.t := Quiz.mk 0 None false 0 false.

(** The buttons as the screen offers them: the completed screen has only
    "Try Again"; an option reacts while no explanation is shown; "Next" is
    there while one is. *)
Definition quiz_step (questions : list Quiz.question) (q : Quiz.t)
    (e : Quiz.event) : Quiz.t :=
  match e with
  | Quiz.PressOption option =>
    if Quiz.quizCompleted q then q
    else if Quiz.showExplanation q then q
    else handleAnswer questions option q
  | Quiz.PressNext =>
    if Quiz.quizCompleted q then q
    else if Quiz.showExplanation q then handleNextQuestion questions q
    else q
  | Quiz.PressRestart =>
    if Quiz.quizCompleted q then handleRestart q else q
  end.

Definition quiz_run (questions : list Quiz.question) (es : list Quiz.event)
    : Quiz.t :=
  fold_left (quiz_step questions) es quizStart.

(** Answering each question with its correct answer and pressing "Next". *)
Definition perfect_run (questions : list Quiz.question) : list Quiz.event :=
  concat (map (λ qn, [Quiz.PressOption (Quiz.correctAnswer qn); Quiz.PressNext])
            questions).

(** What holds of the quiz screen after any sequence of presses. *)
Definition quiz_ok (questions : list Quiz.question) (q : Quiz.t) : Prop :=
  Quiz.currentQuestion q < length questions ∧
  Quiz.score q ≤ Quiz.currentQuestion q + (if Quiz.showExplanation q then 1 else 0) ∧
  (Quiz.quizCompleted q = true →
   Quiz.currentQuestion q = length questions - 1 ∧ Quiz.showExplanation q = true).

(** * Properties *)

(** ** The inner loop *)

Lemma fold_visit path l queue visited :
  fold_left (visit path) l (queue, visited)
  = (queue ++ map (λ c, path ++ [c]) (fresh visited l), visited ∪ list_to_set l).
Proof.
  revert queue visited; induction l as [|c l IH]; intros queue visited; simpl.
  - rewrite app_nil_r. f_equal. set_solver.
  - unfold visit at 2; simpl. destruct (decide (c ∈ visited)) as [Hc|Hc].
    + rewrite IH. f_equal. set_solver.
    + rewrite IH. simpl. rewrite <- app_assoc. f_equal. set_solver.
Qed.

Lemma findPath_loop_unfold fuel d nodes p rest visited :
  findPath_loop (S fuel) d nodes (p :: rest) visited =
  match last p with
  | None => findPath_loop fuel d nodes rest visited
  | Some u =>
    if String.eqb u d then Some p
    else findPath_loop fuel d nodes
           (rest ++ map (λ c, p ++ [c]) (fresh visited (links nodes u)))
           (visited ∪ list_to_set (links nodes u))
  end.
Proof.
  simpl. destruct (last p) as [u|]; [|done].
  destruct (String.eqb u d); [done|]. unfold links.
  destruct (find _ nodes) as [n|].
  - by rewrite fold_visit.
  - simpl. rewrite app_nil_r. f_equal. set_solver.
Qed.

Lemma fresh_elem visited l c :
  c ∈ fresh visited l ↔ c ∈ l ∧ c ∉ visited.
Proof.
  revert visited; induction l as [|x l IH]; intros visited; simpl.
  - set_solver.
  - destruct (decide (x ∈ visited)) as [Hx|Hx].
    + rewrite IH. set_solver.
    + rewrite !elem_of_cons, IH. destruct (decide (c = x)); set_solver.
Qed.

Lemma fresh_NoDup visited l : NoDup (fresh visited l).
Proof.
  revert visited; induction l as [|x l IH]; intros visited; simpl.
  - constructor.
  - destruct (decide (x ∈ visited)); [apply IH|].
    constructor; [|apply IH]. rewrite fresh_elem. set_solver.
Qed.

Lemma links_all_connections nodes u c :
  c ∈ links nodes u → c ∈ all_connections nodes.
Proof.
  unfold links, all_connections.
  destruct (find _ nodes) as [n|] eqn:Hfind; [|set_solver].
  intros Hc. apply find_some in Hfind as [Hn _].
  apply list_elem_of_In, in_concat. exists (NetworkNode.connections n).
  split; [apply in_map, Hn | by apply list_elem_of_In].
Qed.

(** Measure of the [while] loop: paths waiting plus ids not yet visited. *)
Lemma fresh_measure (cands visited : gset string) l :
  (∀ c, c ∈ l → c ∈ cands) →
  length (fresh visited l) + size (cands ∖ (visited ∪ list_to_set l))
  ≤ size (cands ∖ visited).
Proof.
  intros Hl.
  rewrite <- (size_list_to_set (C := gset string) (fresh visited l))
    by apply fresh_NoDup.
  rewrite <- size_union.
  - apply subseteq_size. intros x. rewrite elem_of_union, !elem_of_difference.
    rewrite elem_of_list_to_set, fresh_elem. set_solver.
  - intros x. rewrite elem_of_list_to_set, fresh_elem, elem_of_difference.
    set_solver.
Qed.

Lemma findPath_loop_enough fuel d nodes queue visited :
  length queue + size (list_to_set (all_connections nodes) ∖ visited) < fuel →
  is_Some (findPath_loop fuel d nodes queue visited).
Proof.
  revert queue visited; induction fuel as [|fuel IH]; intros queue visited Hm; [lia|].
  destruct queue as [|p rest]; [by eexists|].
  rewrite findPath_loop_unfold. simpl in Hm.
  destruct (last p) as [u|]; [|apply IH; lia].
  destruct (String.eqb u d); [by eexists|].
  apply IH. rewrite length_app, length_map.
  assert (Hf : ∀ c, c ∈ links nodes u →
                    c ∈ (list_to_set (all_connections nodes) : gset string)).
  { intros c Hc. apply elem_of_list_to_set. by eapply links_all_connections. }
  apply (fresh_measure _ visited) in Hf. lia.
Qed.

Lemma size_list_to_set_le (l : list string) :
  size (list_to_set l : gset string) ≤ length l.
Proof.
  induction l as [|x l IH].
  - by rewrite list_to_set_nil, size_empty.
  - rewrite list_to_set_cons, size_union_alt, size_singleton.
    cbn [length]. apply le_n_S. etrans; [|apply IH].
    apply subseteq_size. set_solver.
Qed.

(** [findPath] never runs out of iterations. *)
Lemma findPath_loop_total source d nodes :
  findPath_loop (findPath_fuel nodes) d nodes [[source]] ∅ = Some (findPath source d nodes).
Proof.
  unfold findPath.
  destruct (findPath_loop_enough (findPath_fuel nodes) d nodes [[source]] ∅) as [r Hr];
    [|by rewrite Hr].
  unfold findPath_fuel. cbn [length].
  pose proof (size_list_to_set_le (all_connections nodes)) as Hle.
  assert (size ((list_to_set (all_connections nodes) : gset string) ∖ ∅)
          ≤ size (list_to_set (all_connections nodes) : gset string))
    by (apply subseteq_size; set_solver).
  lia.
Qed.

(** ** The discovery order *)

Section order.
Variable nodes : list NetworkNode.t.

Lemma lexlt_snoc p q a b :
  lexlt nodes p q → lexlt nodes (p ++ [a]) (q ++ [b]).
Proof. induction 1; simpl; [by apply lexlt_here | by apply lexlt_next]. Qed.

Lemma lexlt_last p u v v' :
  last p = Some u →
  index_of v (links nodes u) < index_of v' (links nodes u) →
  lexlt nodes (p ++ [v]) (p ++ [v']).
Proof.
  intros Hlast Hlt. induction p as [|x [|y p] IH]; simpl in *.
  - done.
  - injection Hlast as ->. by apply lexlt_here.
  - apply lexlt_next, IH, Hlast.
Qed.

Lemma lexlt_trans p q r : lexlt nodes p q → lexlt nodes q r → lexlt nodes p r.
Proof.
  intros Hpq; revert r; induction Hpq as [u v v' p q Hlt|u p q Hpq IH];
    intros r Hqr; inversion Hqr; subst.
  - apply lexlt_here. lia.
  - match goal with H : lexlt _ (_ :: _) _ |- _ => inversion H; subst end;
      by apply lexlt_here.
  - inversion Hpq; subst; by apply lexlt_here.
  - apply lexlt_next; auto.
Qed.

Lemma lexlt_length2 p q : lexlt nodes p q → 2 ≤ length p ∧ 2 ≤ length q.
Proof. induction 1; simpl in *; lia. Qed.

Lemma lexlt_earlier p q : lexlt nodes p q → earlier nodes p q.
Proof.
  induction 1 as [u v v' p q Hlt|u p q _ (i & w & v & v' & Ht & Hi & Hv & Hv' & Hlt)].
  - by exists 0, u, v, v'.
  - exists (S i), w, v, v'. repeat split; try done. simpl. by rewrite Ht.
Qed.

Lemma before_trans p q r :
  before nodes p q → before nodes q r → before nodes p r.
Proof.
  unfold before. intros [?|[? ?]] [?|[? ?]]; try (left; lia).
  right. split; [lia|]. by eapply lexlt_trans.
Qed.

Lemma not_after_trans p q r :
  not_after nodes p q → not_after nodes q r → not_after nodes p r.
Proof.
  unfold not_after. intros [->|?] [->|?]; auto.
  right. by eapply before_trans.
Qed.

Lemma before_snoc p q a b :
  before nodes p q → before nodes (p ++ [a]) (q ++ [b]).
Proof.
  unfold before. rewrite !length_app. simpl.
  intros [?|[? ?]]; [left; lia|right]. split; [lia|]. by apply lexlt_snoc.
Qed.

Lemma not_after_snoc p q a :
  not_after nodes p q → not_after nodes (p ++ [a]) (q ++ [a]).
Proof. intros [->|?]; [by left|right]. by apply before_snoc. Qed.

Lemma before_length p q : before nodes p q → length p ≤ length q.
Proof. unfold before. lia. Qed.

Lemma not_before_start p s : p ≠ [] → ¬ before nodes p [s].
Proof.
  intros Hp [Hlt|[_ Hlex]].
  - destruct p; simpl in *; [done|lia].
  - apply lexlt_length2 in Hlex. simpl in *. lia.
Qed.
End order.

Lemma index_of_cons_ne x y l : x ≠ y → index_of x (y :: l) = S (index_of x l).
Proof. intros Hne. simpl. by destruct (decide (x = y)). Qed.

Lemma StronglySorted_impl_elem {A} (R R' : relation A) l :
  StronglySorted R l →
  (∀ x y, x ∈ l → y ∈ l → R x y → R' x y) →
  StronglySorted R' l.
Proof.
  induction 1 as [|x l Hs IH Hx]; intros HR; constructor.
  - apply IH. intros a b Ha Hb. apply HR; by right.
  - rewrite Forall_forall in *. intros y Hy.
    apply HR; [by left|by right|by apply Hx].
Qed.

(** One pass of the inner loop enqueues the new neighbours in the order of
    their first occurrence in the link list. *)
Lemma fresh_sorted visited l :
  StronglySorted (λ a b, index_of a l < index_of b l) (fresh visited l).
Proof.
  revert visited; induction l as [|c l IH]; intros visited; simpl fresh.
  - constructor.
  - destruct (decide (c ∈ visited)) as [Hc|Hc].
    + eapply StronglySorted_impl_elem; [apply (IH visited)|].
      intros a b Ha Hb Hlt. apply fresh_elem in Ha as [_ Ha], Hb as [_ Hb].
      cbv beta in Hlt |- *. rewrite !index_of_cons_ne by set_solver. lia.
    + constructor.
      * eapply StronglySorted_impl_elem; [apply (IH (visited ∪ {[c]}))|].
        intros a b Ha Hb Hlt. apply fresh_elem in Ha as [_ Ha], Hb as [_ Hb].
        cbv beta in Hlt |- *. rewrite !index_of_cons_ne by set_solver. lia.
      * apply Forall_forall. intros b Hb. apply fresh_elem in Hb as [_ Hb].
        cbv beta. rewrite (index_of_cons_ne b) by set_solver.
        simpl. destruct (decide (c = c)); [lia|done].
Qed.

(** ** Walks *)

Lemma walk_nonempty nodes s p : walk nodes s p → p ≠ [].
Proof. destruct 1; [done|]. by destruct p. Qed.

Lemma walk_head nodes s p : walk nodes s p → head p = Some s.
Proof.
  induction 1 as [|p u v Hw IH _ _]; [done|].
  destruct p; [done|]. exact IH.
Qed.

Lemma walk_length nodes s p : walk nodes s p → 1 ≤ length p.
Proof. intros Hw. apply walk_nonempty in Hw. destruct p; simpl; [done|lia]. Qed.

(** ** The invariant of the search *)

Lemma bfs_inv_init nodes s d : bfs_inv nodes s d [] [[s]] ∅.
Proof.
  split; simpl.
  - repeat constructor.
  - repeat constructor.
  - set_solver.
  - intros q Hq. left. set_solver.
  - set_solver.
  - set_solver.
Qed.

Lemma bfs_inv_step nodes s d closed p rest visited u :
  bfs_inv nodes s d closed (p :: rest) visited →
  last p = Some u → u ≠ d →
  bfs_inv nodes s d (closed ++ [p])
    (rest ++ map (λ c, p ++ [c]) (fresh visited (links nodes u)))
    (visited ∪ list_to_set (links nodes u)).
Proof.
  intros [Hwalk Hsorted Hstart Hparent Hvis Hdone] Hlast Hud.
  set (new := map (λ c, p ++ [c]) (fresh visited (links nodes u))).
  assert (Heq : (closed ++ [p]) ++ rest ++ new = (closed ++ p :: rest) ++ new)
    by (by rewrite <- !app_assoc).
  assert (Hnew : ∀ q, q ∈ new ↔
            ∃ c, q = p ++ [c] ∧ c ∈ links nodes u ∧ c ∉ visited).
  { intros q. unfold new. rewrite list_elem_of_In, in_map_iff.
    split; intros (c & Hc1 & Hc2); exists c.
    - apply list_elem_of_In, fresh_elem in Hc2. by split.
    - split; [done|]. by apply list_elem_of_In, fresh_elem. }
  assert (Hp : walk nodes s p).
  { rewrite Forall_forall in Hwalk. apply Hwalk. set_solver. }
  assert (Hdp : ∀ e, e ∈ closed → before nodes e p).
  { intros e He. eapply StronglySorted_app_1_elem_of; [exact Hsorted|done|by left]. }
  assert (Hpr : ∀ e, e ∈ rest → before nodes p e).
  { apply StronglySorted_app_1_r, StronglySorted_cons in Hsorted as [HF _].
    by rewrite Forall_forall in HF. }
  assert (Hchild : ∀ e c, e ∈ closed ++ p :: rest → before nodes e (p ++ [c])).
  { intros e c He. apply elem_of_app in He as [He|He].
    - left. apply Hdp, before_length in He. rewrite length_app; simpl; lia.
    - apply elem_of_cons in He as [->|He].
      + left. rewrite length_app. simpl. lia.
      + destruct (Hparent e) as [->|(r & c' & -> & Hr)]; [set_solver|..].
        * exfalso. eapply not_before_start; [|apply Hpr, He].
          by eapply walk_nonempty.
        * apply before_snoc, Hdp, Hr. }
  split; rewrite Heq.
  - apply Forall_app; split; [done|]. apply Forall_forall.
    intros q (c & -> & Hc & _)%Hnew. by eapply walk_hop.
  - apply StronglySorted_app_2; [|done|].
    + intros e q He (c & -> & _)%Hnew. by apply Hchild.
    + unfold new. generalize (fresh_sorted visited (links nodes u)).
      generalize (fresh visited (links nodes u)). intros l.
      induction 1 as [|c l _ IH Hc]; simpl; constructor; [done|].
      rewrite Forall_forall in Hc. apply Forall_forall. intros q Hq.
      apply list_elem_of_In, in_map_iff in Hq as (c' & <- & Hc').
      right. split; [by rewrite !length_app|].
      eapply lexlt_last; [done|]. by apply Hc, list_elem_of_In.
  - set_solver.
  - intros q [Hq|Hq]%elem_of_app.
    + destruct (Hparent q Hq) as [->|(r & c & -> & Hr)]; [by left|right].
      exists r, c. set_solver.
    + apply Hnew in Hq as (c & -> & _). right. exists p, c. set_solver.
  - intros v [Hv|Hv]%elem_of_union.
    + destruct (Hvis v Hv) as (f & Hf & ?). exists f. set_solver.
    + apply elem_of_list_to_set in Hv.
      destruct (decide (v ∈ visited)) as [Hv'|Hv'].
      * destruct (Hvis v Hv') as (f & Hf & ?). exists f. set_solver.
      * exists (p ++ [v]). split; [apply elem_of_app; right; apply Hnew; eauto|].
        split; [|by rewrite last_snoc].
        intros Hs. apply (f_equal length) in Hs. rewrite length_app in Hs.
        simpl in Hs. pose proof (walk_length _ _ _ Hp). lia.
  - intros q w [Hq|Hq]%elem_of_app Hw.
    + destruct (Hdone q w Hq Hw) as [Hne Hc]. split; [done|].
      intros c Hcl. destruct (Hc c Hcl) as (f & Hf & ?). exists f. set_solver.
    + apply list_elem_of_singleton in Hq as ->.
      assert (w = u) as -> by congruence. split; [done|]. intros c Hc.
      destruct (decide (c ∈ visited)) as [Hv|Hv].
      * destruct (Hvis c Hv) as (f & Hf & Hfs & Hfl).
        exists f. split; [set_solver|]. split; [done|].
        destruct (Hparent f Hf) as [->|(r & c' & -> & Hr)]; [done|].
        rewrite last_snoc in Hfl. injection Hfl as ->.
        right. apply before_snoc, Hdp, Hr.
      * exists (p ++ [c]). split; [apply elem_of_app; right; apply Hnew; eauto|].
        split; [by rewrite last_snoc|by left].
Qed.

(** Every walk from the source is matched by an enqueued path to the same
    node that is not after it, or is longer than a path still waiting. *)
Lemma bfs_dominated nodes s d closed queue visited w :
  bfs_inv nodes s d closed queue visited → walk nodes s w →
  (∃ e, e ∈ closed ++ queue ∧ last e = last w ∧ not_after nodes e w) ∨
  (∃ q, q ∈ queue ∧ length q < length w).
Proof.
  intros Hinv. induction 1 as [|w u v Hw IH Hlast Hadj].
  - left. exists [s]. split; [apply Hinv|]. split; [done|by left].
  - destruct IH as [(e & He & Hel & Hew)|(q & Hq & Hlt)].
    + apply elem_of_app in He as [He|He].
      * destruct (inv_done _ _ _ _ _ _ Hinv e u He) as [_ Hc]; [congruence|].
        destruct (Hc v Hadj) as (f & Hf & Hfl & Hfe).
        left. exists f. split; [done|]. split; [by rewrite last_snoc|].
        eapply not_after_trans; [exact Hfe|]. by apply not_after_snoc.
      * right. exists e. split; [done|]. rewrite length_app. simpl.
        destruct Hew as [->|Hb]; [lia|]. apply before_length in Hb. lia.
    + right. exists q. split; [done|]. rewrite length_app; simpl; lia.
Qed.

Lemma findPath_loop_correct nodes s d fuel : ∀ closed queue visited r,
  bfs_inv nodes s d closed queue visited →
  findPath_loop fuel d nodes queue visited = Some r →
  (r = [] ∧ ¬ connected nodes s d) ∨
  (walk nodes s r ∧ last r = Some d ∧
   ∀ w, walk nodes s w → last w = Some d → not_after nodes r w).
Proof.
  induction fuel as [|fuel IH]; intros closed queue visited r Hinv Hr; [done|].
  destruct queue as [|p rest].
  - simpl in Hr. injection Hr as <-. left. split; [done|].
    intros (w & Hw & Hwd).
    destruct (bfs_dominated _ _ _ _ _ _ _ Hinv Hw)
      as [(e & He & Hel & _)|(q & Hq & _)]; [|set_solver].
    rewrite app_nil_r in He. rewrite Hwd in Hel.
    by destruct (inv_done _ _ _ _ _ _ Hinv e d He Hel).
  - rewrite findPath_loop_unfold in Hr.
    assert (Hp : walk nodes s p).
    { pose proof (inv_walk _ _ _ _ _ _ Hinv) as Hwalk.
      rewrite Forall_forall in Hwalk. apply Hwalk. set_solver. }
    destruct (last p) as [u|] eqn:Hlast.
    2: { apply last_None in Hlast. by apply walk_nonempty in Hp. }
    assert (Hpr : ∀ e, e ∈ rest → before nodes p e).
    { pose proof (inv_sorted _ _ _ _ _ _ Hinv) as Hsorted.
      apply StronglySorted_app_1_r, StronglySorted_cons in Hsorted as [HF _].
      by rewrite Forall_forall in HF. }
    destruct (String.eqb u d) eqn:Hud.
    + apply String.eqb_eq in Hud as ->. injection Hr as <-.
      right. split; [done|]. split; [done|]. intros w Hw Hwd.
      destruct (bfs_dominated _ _ _ _ _ _ _ Hinv Hw)
        as [(e & He & Hel & Hew)|(q & Hq & Hlt)].
      * apply elem_of_app in He as [He|He].
        -- rewrite Hwd in Hel.
           by destruct (inv_done _ _ _ _ _ _ Hinv e d He Hel).
        -- apply elem_of_cons in He as [->|He]; [done|].
           eapply not_after_trans; [|exact Hew]. right. by apply Hpr.
      * right. left. apply elem_of_cons in Hq as [->|Hq]; [done|].
        apply Hpr, before_length in Hq. lia.
    + apply String.eqb_neq in Hud. eapply IH; [|exact Hr].
      by apply bfs_inv_step.
Qed.

(** What [findPath] returns, in both cases. *)
Lemma findPath_spec nodes s d :
  (findPath s d nodes = [] ∧ ¬ connected nodes s d) ∨
  (walk nodes s (findPath s d nodes) ∧ last (findPath s d nodes) = Some d ∧
   ∀ w, walk nodes s w → last w = Some d → not_after nodes (findPath s d nodes) w).
Proof.
  eapply findPath_loop_correct; [apply bfs_inv_init|apply findPath_loop_total].
Qed.

(** [findPath] decides whether the destination can be reached. *)
Lemma connected_findPath nodes s d :
  connected nodes s d ↔ findPath s d nodes ≠ [].
Proof.
  destruct (findPath_spec nodes s d) as [[-> Hnot]|(Hw & Hlast & _)].
  - split; [by intros ?%Hnot|done].
  - split; [|by exists (findPath s d nodes)].
    intros _ Hnil. rewrite Hnil in Hw. by apply walk_nonempty in Hw.
Qed.

(** With unique ids, [links] is the link list of the node itself. *)
Lemma links_unique nodes n :
  NoDup (map NetworkNode.id nodes) → n ∈ nodes →
  links nodes (NetworkNode.id n) = NetworkNode.connections n.
Proof.
  unfold links. induction nodes as [|m nodes IH]; intros Hnd Hn; [set_solver|].
  simpl in *. apply NoDup_cons in Hnd as [Hm Hnd].
  destruct (String.eqb_spec (NetworkNode.id m) (NetworkNode.id n)) as [Heq|Hne].
  - apply elem_of_cons in Hn as [->|Hn]; [done|].
    exfalso. apply Hm. rewrite Heq. apply list_elem_of_In, in_map.
    by apply list_elem_of_In.
  - apply elem_of_cons in Hn as [->|Hn]; [done|]. by apply IH.
Qed.

(** ** Claims about [findPath] *)

(** Claim C1.  When the destination can be reached from the source through
    the link lists, [findPath] returns a sequence that starts at the source,
    ends at the destination and follows the links, its number of hops is
    the hop-count distance, and every other walk to the destination with as
    few hops is discovered later: where the two part, the returned path
    takes the neighbour that stands first in the link list. *)
Theorem C1_findPath_shortest_first nodes s d :
  connected nodes s d →
  head (findPath s d nodes) = Some s ∧
  last (findPath s d nodes) = Some d ∧
  walk nodes s (findPath s d nodes) ∧
  distance nodes s d (hops (findPath s d nodes)) ∧
  (∀ w, walk nodes s w → last w = Some d →
        hops w = hops (findPath s d nodes) →
        w = findPath s d nodes ∨ earlier nodes (findPath s d nodes) w).
Proof.
  intros Hconn.
  destruct (findPath_spec nodes s d) as [[_ Hnot]|(Hw & Hlast & Hmin)]; [done|].
  split; [by eapply walk_head|]. split; [done|]. split; [done|].
  split; [split|].
  - by exists (findPath s d nodes).
  - intros w Hww Hwd. unfold hops.
    destruct (Hmin w Hww Hwd) as [<-|Hb]; [done|].
    apply before_length in Hb. lia.
  - intros w Hww Hwd Hh. destruct (Hmin w Hww Hwd) as [->|[Hlt|[_ Hlex]]].
    + by left.
    + apply walk_length in Hw, Hww. unfold hops in Hh. lia.
    + right. by apply lexlt_earlier.
Qed.

Lemma C1_witness :
  findPath "A" "D" diamond = ["A"; "B"; "D"] ∧
  distance diamond "A" "D" 2 ∧
  earlier diamond ["A"; "B"; "D"] ["A"; "C"; "D"].
Proof.
  assert (Hc : connected diamond "A" "D").
  { apply connected_findPath. vm_compute. discriminate. }
  destruct (C1_findPath_shortest_first diamond "A" "D" Hc)
    as (_ & _ & _ & Hdist & Hfirst).
  assert (Hp : findPath "A" "D" diamond = ["A"; "B"; "D"]) by (vm_compute; reflexivity).
  rewrite Hp in Hdist, Hfirst.
  split; [reflexivity|]. split; [exact Hdist|].
  destruct (Hfirst ["A"; "C"; "D"]) as [Heq|He].
  - apply (walk_hop _ _ ["A"; "C"] "C" "D"); [|reflexivity|vm_compute; set_solver].
    apply (walk_hop _ _ ["A"] "A" "C"); [|reflexivity|vm_compute; set_solver].
    apply walk_start.
  - reflexivity.
  - reflexivity.
  - discriminate Heq.
  - exact He.
Defined.

(** Claim C4.  When the destination cannot be reached, [findPath] returns
    the empty sequence and [sendPacket] returns the state it was given: no
    packet is added, the statistics are the same, and there is no error
    result to report. *)
Theorem C4_unreachable_noop st s d data idNow tsNow :
  ¬ connected (nodes st) s d →
  findPath s d (nodes st) = [] ∧
  sendPacket s d data idNow tsNow st = st ∧
  packets (step st (Send s d data idNow tsNow)) = packets st ∧
  networkStats (step st (Send s d data idNow tsNow)) = networkStats st.
Proof.
  intros Hnc.
  assert (Hnil : findPath s d (nodes st) = []).
  { destruct (findPath s d (nodes st)) eqn:Hp; [done|].
    exfalso. apply Hnc, connected_findPath. by rewrite Hp. }
  split; [done|]. simpl. unfold sendPacket. by rewrite Hnil.
Qed.

Lemma C4_witness :
  findPath "H1" "X9" initialNodes = [] ∧
  sendPacket "H1" "X9" "ping" 3%N 3%N initialState = initialState.
Proof.
  assert (Hnc : ¬ connected (nodes initialState) "H1" "X9").
  { rewrite connected_findPath. intros Hne. apply Hne. vm_compute. reflexivity. }
  destruct (C4_unreachable_noop initialState "H1" "X9" "ping" 3%N 3%N Hnc)
    as (Hnil & Hsame & _).
  split; [exact Hnil|exact Hsame].
Defined.

(** ** Packets under the timer and the other events *)

Lemma tick_packet_route pkt : same_route (tick_packet pkt) pkt.
Proof.
  unfold tick_packet, same_route.
  destruct (Packet.status pkt); [|done..]. by destruct (decide _).
Qed.

Lemma tick_packet_terminal pkt :
  Packet.status pkt ≠ Packet.moving → tick_packet pkt = pkt.
Proof. unfold tick_packet. by destruct (Packet.status pkt). Qed.

Lemma tick_packet_status pkt :
  status_step (Packet.status pkt) (Packet.status (tick_packet pkt)).
Proof.
  unfold tick_packet, status_step.
  destruct (Packet.status pkt) eqn:Hs; [|by left..].
  destruct (decide _); simpl; [by right|by left].
Qed.

Lemma tick_packet_ok pkt : packet_ok pkt → packet_ok (tick_packet pkt).
Proof.
  intros Hok. unfold tick_packet.
  destruct (Packet.status pkt) eqn:Hs; [|exact Hok..].
  destruct Hok as (Hpos & Hnd & Hdel). unfold packet_ok.
  destruct (decide _) as [Hle|Hgt]; simpl; (split; [lia|]).
  - split; [done|]. intros _. lia.
  - by split.
Qed.

(** At the last position, one more tick delivers. *)
Lemma tick_packet_last pkt :
  packet_ok pkt →
  Packet.currentPosition pkt = length (Packet.path pkt) - 1 →
  Packet.status (tick_packet pkt) = Packet.delivered.
Proof.
  unfold tick_packet, packet_ok. intros (Hpos & Hnd & Hdel) Hlast.
  destruct (Packet.status pkt) eqn:Hs; [|done..].
  destruct (decide _) as [Hle|Hgt]; simpl; [done|lia].
Qed.

Lemma iter_tick_route n pkt : same_route (Nat.iter n tick_packet pkt) pkt.
Proof.
  induction n as [|n IH]; simpl; [by repeat split|].
  destruct (tick_packet_route (Nat.iter n tick_packet pkt)) as (?&?&?&?&?&?&?).
  destruct IH as (?&?&?&?&?&?&?). repeat split; congruence.
Qed.

Lemma iter_tick_terminal n pkt :
  Packet.status pkt ≠ Packet.moving → Nat.iter n tick_packet pkt = pkt.
Proof.
  intros Hs. induction n as [|n IH]; simpl; [done|].
  rewrite IH. by apply tick_packet_terminal.
Qed.

Lemma iter_tick_ok n pkt : packet_ok pkt → packet_ok (Nat.iter n tick_packet pkt).
Proof. intros Hok. induction n; simpl; [done|]. by apply tick_packet_ok. Qed.

Lemma tick_lookup l i : tick l !! i = tick_packet <$> (l !! i).
Proof.
  unfold tick. change (map tick_packet l) with (tick_packet <$> l).
  apply list_lookup_fmap.
Qed.

(** Case analysis on an event, down to the branches of its handler. *)
Ltac event_cases e :=
  destruct e; simpl;
  repeat match goal with
    | |- context [handleNodePress _ ?st] =>
        unfold handleNodePress; destruct (selectedNode st) as [?|]
    | |- context [truthy ?o] => destruct (truthy o)
    | |- context [if String.eqb ?a ?b then _ else _] => destruct (String.eqb a b)
    | |- context [sendPacket _ _ _ _ _ _] => unfold sendPacket; destruct (decide _)
    | |- context [if isSimulating ?st then _ else _] => destruct (isSimulating st)
    | |- context [savedConfigs ?st !! ?i] => destruct (savedConfigs st !! i)
    end.

(** The three things an event can do to the packet list. *)
Lemma step_packets st e :
  packets (step st e) = packets st ∨
  (e = Tick ∧ packets (step st e) = tick (packets st)) ∨
  (∃ s d data idNow tsNow,
     e = Send s d data idNow tsNow ∧ findPath s d (nodes st) ≠ [] ∧
     packets (step st e)
     = packets st ++ [newPacket s d data (findPath s d (nodes st))
                        (packetType st) idNow tsNow]).
Proof.
  event_cases e; try (by left).
  - right; right. exists source, destination, data, idNow, tsNow.
    repeat split. intros Hnil. by rewrite Hnil in *.
  - by right; left.
Qed.

Lemma step_packet_at st e i pkt :
  packets st !! i = Some pkt →
  packets (step st e) !! i = Some pkt ∨
  packets (step st e) !! i = Some (tick_packet pkt).
Proof.
  intros Hi.
  destruct (step_packets st e) as [->|[[_ ->]|(s & d & data & a & b & _ & _ & ->)]].
  - by left.
  - right. by rewrite tick_lookup, Hi.
  - left. by apply lookup_app_l_Some.
Qed.

(** A packet keeps its place in the list and is only ever ticked. *)
Lemma run_packet_at es : ∀ st i pkt,
  packets st !! i = Some pkt →
  ∃ n, packets (run st es) !! i = Some (Nat.iter n tick_packet pkt).
Proof.
  induction es as [|e es IH]; intros st i pkt Hi; simpl.
  - by exists 0.
  - destruct (step_packet_at st e i pkt Hi) as [He|He].
    + by apply IH.
    + destruct (IH _ _ _ He) as [n Hn]. exists (S n).
      by rewrite Nat.iter_succ_r.
Qed.

Lemma send_packet_at st s d data idNow tsNow :
  findPath s d (nodes st) ≠ [] →
  packets (sendPacket s d data idNow tsNow st) !! length (packets st)
  = Some (newPacket s d data (findPath s d (nodes st)) (packetType st) idNow tsNow).
Proof.
  intros Hne. unfold sendPacket. destruct (decide _) as [Hz|_].
  - by destruct (findPath s d (nodes st)).
  - simpl. by rewrite lookup_app_r, Nat.sub_diag.
Qed.

Lemma newPacket_ok s d data path type idNow tsNow :
  path ≠ [] → packet_ok (newPacket s d data path type idNow tsNow).
Proof.
  intros Hne. unfold packet_ok; simpl.
  split; [destruct path; simpl; [done|lia]|]. by split.
Qed.

Lemma packet_ok_valid pkt : packet_ok pkt → valid_position pkt.
Proof.
  intros (Hpos & _). unfold valid_position.
  split; [lia|]. by apply lookup_lt_is_Some.
Qed.

Lemma iter_tick_lookup n l i pkt :
  l !! i = Some pkt → Nat.iter n tick l !! i = Some (Nat.iter n tick_packet pkt).
Proof.
  intros Hi. induction n as [|n IH]; simpl; [done|].
  by rewrite tick_lookup, IH.
Qed.

Lemma step_no_dropped st e :
  Forall (λ pkt, Packet.status pkt ≠ Packet.dropped) (packets st) →
  Forall (λ pkt, Packet.status pkt ≠ Packet.dropped) (packets (step st e)).
Proof.
  intros Hall.
  destruct (step_packets st e) as [->|[[_ ->]|(s & d & data & a & b & _ & _ & ->)]].
  - done.
  - unfold tick. apply Forall_forall. intros pkt' Hin.
    apply list_elem_of_In, in_map_iff in Hin as (pkt & <- & Hin).
    rewrite Forall_forall in Hall. apply list_elem_of_In, Hall in Hin.
    destruct (tick_packet_status pkt) as [<-|[_ ->]]; done.
  - apply Forall_app; split; [done|]. by repeat constructor.
Qed.

Lemma run_app st es es' : run st (es ++ es') = run (run st es) es'.
Proof. apply fold_left_app. Qed.

Lemma reachable_no_dropped st :
  reachable_state st →
  Forall (λ pkt, Packet.status pkt ≠ Packet.dropped) (packets st).
Proof.
  intros [es ->]. induction es as [|e es IH] using rev_ind.
  - constructor.
  - rewrite run_app. simpl. by apply step_no_dropped.
Qed.

(** ** Claims about packets *)

(** Claim C2, as stated, fails on the line A - B - C: after the second tick
    the packet is at index 2 and its status is still [moving]. *)
Lemma C2_counterexample :
  ¬ ∃ pkt,
      packets (run lineState [Send "A" "C" "hello" 7%N 7%N; Tick; Tick]) = [pkt] ∧
      Packet.currentPosition pkt = 2 ∧ Packet.status pkt = Packet.delivered.
Proof.
  intros (pkt & Hpkts & _ & Hstatus).
  vm_compute in Hpkts. injection Hpkts as <-. discriminate Hstatus.
Qed.

(** Claim C2, amended.  On the line A - B - C, [sendPacket(A, C, data)] makes
    one packet with path [A, B, C], position 0 and status [moving]; it is at
    position 1 and moving after one tick, at position 2 and still moving
    after two ticks, and at position 2 and delivered after three. *)
Theorem C2_line_scenario (data : string) (idNow tsNow : N) (n : nat) :
  map (λ pkt, (Packet.path pkt, Packet.currentPosition pkt, Packet.status pkt))
      (packets (run lineState (Send "A" "C" data idNow tsNow :: replicate n Tick)))
  = [(["A"; "B"; "C"], Nat.min n 2,
      if decide (n < 3) then Packet.moving else Packet.delivered)].
Proof.
  destruct n as [|[|[|n]]]; [vm_compute; reflexivity..|].
  change (Send "A" "C" data idNow tsNow :: replicate (S (S (S n))) Tick)
    with ([Send "A" "C" data idNow tsNow; Tick; Tick; Tick] ++ replicate n Tick).
  rewrite run_app.
  set (st3 := run lineState [Send "A" "C" data idNow tsNow; Tick; Tick; Tick]).
  assert (Hfix : ∀ st, isSimulating st = isSimulating st3 → packets st = packets st3 →
            packets (run st (replicate n Tick)) = packets st3).
  { induction n as [|n IH]; intros st Hsim Hp; simpl; [done|].
    apply IH; destruct (isSimulating st) eqn:Hs; simpl; try done.
    rewrite Hp. reflexivity. }
  rewrite Hfix by done. vm_compute. reflexivity.
Qed.

(** Claim C3, as stated, fails: on the initial topology a packet from H1 to
    H2 is, after two ticks, at the last index of its path and still
    [moving]. *)
Lemma C3_counterexample :
  ¬ ∀ pkt,
      pkt ∈ packets (run initialState
                       [ToggleSimulation; Send "H1" "H2" "ping" 3%N 3%N; Tick; Tick]) →
      valid_position pkt ∧
      (Packet.currentPosition pkt = length (Packet.path pkt) - 1 →
       Packet.status pkt = Packet.delivered).
Proof.
  intros Hall.
  destruct (Hall (Packet.mk "p3" "H1" "H2" "ping" ["H1"; "S1"; "H2"] 2
                    Packet.moving Packet.TCP 3%N)) as [_ Hdel].
  - vm_compute. apply list_elem_of_here.
  - specialize (Hdel eq_refl). discriminate Hdel.
Qed.

(** Claim C3, amended.  A packet made by [sendPacket] keeps, through any
    later ticks and other events, a position that is a valid index into its
    path; when it is delivered its position is the last index; and when its
    position is the last index it is delivered or becomes so at the next
    tick. *)
Theorem C3_position_invariant st s d data idNow tsNow es :
  findPath s d (nodes st) ≠ [] →
  ∃ pkt,
    packets (run (sendPacket s d data idNow tsNow st) es) !! length (packets st)
    = Some pkt ∧
    Packet.path pkt = findPath s d (nodes st) ∧
    valid_position pkt ∧
    (Packet.status pkt = Packet.delivered →
     Packet.currentPosition pkt = length (Packet.path pkt) - 1) ∧
    (Packet.currentPosition pkt = length (Packet.path pkt) - 1 →
     Packet.status (tick_packet pkt) = Packet.delivered).
Proof.
  intros Hne.
  destruct (run_packet_at es _ _ _ (send_packet_at st s d data idNow tsNow Hne))
    as [n Hn].
  eexists. split; [exact Hn|].
  pose proof (newPacket_ok s d data _ (packetType st) idNow tsNow Hne) as Hok.
  apply (iter_tick_ok n) in Hok.
  split; [apply iter_tick_route|].
  split; [by apply packet_ok_valid|].
  split; [apply Hok|]. by apply tick_packet_last.
Qed.

Lemma C3_witness :
  ∃ pkt,
    packets (run (sendPacket "A" "C" "hello" 7%N 7%N lineState) [Tick; Tick])
      !! 0 = Some pkt ∧
    Packet.currentPosition pkt = 2 ∧ Packet.status pkt = Packet.moving ∧
    Packet.status (tick_packet pkt) = Packet.delivered.
Proof.
  assert (Hne : findPath "A" "C" (nodes lineState) ≠ [])
    by (vm_compute; discriminate).
  destruct (C3_position_invariant lineState "A" "C" "hello" 7%N 7%N [Tick; Tick] Hne)
    as (pkt & Hpkt & _ & _ & _ & Hlast).
  exists pkt. split; [exact Hpkt|].
  vm_compute in Hpkt. injection Hpkt as <-.
  split; [reflexivity|]. split; [reflexivity|]. apply Hlast. reflexivity.
Defined.

(** Claim C5.  The path of a packet is the sequence [findPath] computed
    from the nodes at send time, and it stays so through every later event
    (ticks, new nodes and connections, presets, scenarios, loaded
    configurations); a tick changes nothing of a packet but its position and
    status. *)
Theorem C5_path_fixed st s d data idNow tsNow es :
  findPath s d (nodes st) ≠ [] →
  (∃ pkt,
     packets (run (step st (Send s d data idNow tsNow)) es) !! length (packets st)
     = Some pkt ∧
     Packet.path pkt = findPath s d (nodes st) ∧
     same_route pkt (newPacket s d data (findPath s d (nodes st))
                       (packetType st) idNow tsNow)) ∧
  (∀ i pkt, packets st !! i = Some pkt →
     ∃ pkt', packets (run st es) !! i = Some pkt' ∧ same_route pkt' pkt) ∧
  (∀ pkt, same_route (tick_packet pkt) pkt).
Proof.
  intros Hne. split; [|split].
  - simpl.
    destruct (run_packet_at es _ _ _ (send_packet_at st s d data idNow tsNow Hne))
      as [n Hn].
    eexists. split; [exact Hn|]. split; apply iter_tick_route.
  - intros i pkt Hi. destruct (run_packet_at es _ _ _ Hi) as [n Hn].
    eexists. split; [exact Hn|]. apply iter_tick_route.
  - apply tick_packet_route.
Qed.

(** The path computed on the line survives the switch to the mesh preset. *)
Lemma C5_witness :
  ∃ pkt,
    packets (run (step lineState (Send "A" "C" "hello" 7%N 7%N))
               [Tick; ApplyTopology mesh; AddNode; Tick]) !! 0 = Some pkt ∧
    Packet.path pkt = ["A"; "B"; "C"].
Proof.
  assert (Hne : findPath "A" "C" (nodes lineState) ≠ [])
    by (vm_compute; discriminate).
  destruct (C5_path_fixed lineState "A" "C" "hello" 7%N 7%N
              [Tick; ApplyTopology mesh; AddNode; Tick] Hne)
    as [(pkt & Hpkt & Hpath & _) _].
  exists pkt. split; [exact Hpkt|]. rewrite Hpath. vm_compute. reflexivity.
Defined.

(** Claim C7.  In every state the screen can reach no packet is [dropped];
    an event changes the status of a packet only from [moving] to
    [delivered]; what a tick does to the packets does not depend on the
    nodes, the connections or the filters; and a packet that is no longer
    moving stays as it is. *)
Theorem C7_no_drop st :
  reachable_state st →
  (∀ pkt, pkt ∈ packets st → Packet.status pkt ≠ Packet.dropped) ∧
  (∀ e i pkt, packets st !! i = Some pkt →
     ∃ pkt', packets (step st e) !! i = Some pkt' ∧
             status_step (Packet.status pkt) (Packet.status pkt')) ∧
  (∀ nodes' connections' filters',
     packets (step (set_packetFilters (λ _, filters')
                      (set_connections (λ _, connections')
                         (set_nodes (λ _, nodes') st))) Tick)
     = packets (step st Tick)) ∧
  (∀ es i pkt, packets st !! i = Some pkt →
     Packet.status pkt ≠ Packet.moving →
     packets (run st es) !! i = Some pkt).
Proof.
  intros Hreach. split; [|split; [|split]].
  - apply Forall_forall, reachable_no_dropped, Hreach.
  - intros e i pkt Hi. destruct (step_packet_at st e i pkt Hi) as [He|He];
      eexists; (split; [exact He|]); [by left|apply tick_packet_status].
  - intros nodes' connections' filters'. simpl. by destruct (isSimulating st).
  - intros es i pkt Hi Hs. destruct (run_packet_at es _ _ _ Hi) as [n Hn].
    by rewrite Hn, iter_tick_terminal.
Qed.

Lemma C7_witness :
  Forall (λ pkt, Packet.status pkt ≠ Packet.dropped)
    (packets (run initialState
                [ToggleSimulation; Send "H1" "H4" "ping" 3%N 3%N;
                 ApplyScenario failure (λ l, l); Tick; Tick; Tick; Tick; Tick; Tick])).
Proof.
  apply Forall_forall.
  apply (C7_no_drop
           (run initialState
              [ToggleSimulation; Send "H1" "H4" "ping" 3%N 3%N;
               ApplyScenario failure (λ l, l); Tick; Tick; Tick; Tick; Tick; Tick])).
  eexists. reflexivity.
Defined.

(** Claim C9.  A tick leaves a delivered or dropped packet exactly as it
    is, and so does any number of ticks, on the packet and in the packet
    list. *)
Theorem C9_tick_terminal pkt :
  Packet.status pkt = Packet.delivered ∨ Packet.status pkt = Packet.dropped →
  tick_packet pkt = pkt ∧
  (∀ n, Nat.iter n tick_packet pkt = pkt) ∧
  (∀ l i n, l !! i = Some pkt → Nat.iter n tick l !! i = Some pkt).
Proof.
  intros Hs.
  assert (Hnm : Packet.status pkt ≠ Packet.moving) by (destruct Hs as [->| ->]; done).
  split; [by apply tick_packet_terminal|].
  split; [intros n; by apply iter_tick_terminal|].
  intros l i n Hi. by rewrite (iter_tick_lookup n l i pkt Hi), iter_tick_terminal.
Qed.

Lemma C9_witness :
  tick_packet (Packet.mk "p3" "H1" "H2" "ping" ["H1"; "S1"; "H2"] 2
                 Packet.delivered Packet.TCP 3%N)
  = Packet.mk "p3" "H1" "H2" "ping" ["H1"; "S1"; "H2"] 2
      Packet.delivered Packet.TCP 3%N.
Proof.
  apply (C9_tick_terminal
           (Packet.mk "p3" "H1" "H2" "ping" ["H1"; "S1"; "H2"] 2
              Packet.delivered Packet.TCP 3%N)).
  left. reflexivity.
Defined.

(** ** Connections *)

Lemma find_map_id (f : NetworkNode.t → NetworkNode.t) u l :
  (∀ n, NetworkNode.id (f n) = NetworkNode.id n) →
  find (λ n, String.eqb (NetworkNode.id n) u) (map f l)
  = f <$> find (λ n, String.eqb (NetworkNode.id n) u) l.
Proof.
  intros Hid. induction l as [|n l IH]; simpl; [done|].
  rewrite Hid. by destruct (String.eqb (NetworkNode.id n) u).
Qed.

Lemma has_node_find l u :
  has_node l u = true →
  ∃ n, find (λ n, String.eqb (NetworkNode.id n) u) l = Some n ∧ NetworkNode.id n = u.
Proof.
  unfold has_node. induction l as [|n l IH]; simpl; [done|].
  destruct (String.eqb_spec (NetworkNode.id n) u) as [Heq|Hne]; simpl; eauto.
Qed.

Lemma link_nodes_links a b l :
  a ≠ b → has_node l a = true → has_node l b = true →
  b ∈ links (link_nodes a b l) a ∧ a ∈ links (link_nodes a b l) b.
Proof.
  intros Hab (na & Hna & Ha)%has_node_find (nb & Hnb & Hb)%has_node_find.
  unfold links, link_nodes.
  rewrite !find_map_id, Hna, Hnb; simpl.
  - rewrite Ha, Hb, String.eqb_refl.
    destruct (String.eqb_spec b a) as [->|_]; [done|]. simpl.
    rewrite String.eqb_refl. simpl. set_solver.
  - intros n. by repeat destruct (String.eqb _ _).
  - intros n. by repeat destruct (String.eqb _ _).
Qed.

Lemma links_map (f : NetworkNode.t → NetworkNode.t) nodes u :
  (∀ n, NetworkNode.id (f n) = NetworkNode.id n) →
  (∀ n, NetworkNode.connections (f n) = NetworkNode.connections n) →
  links (map f nodes) u = links nodes u.
Proof.
  intros Hid Hc. unfold links. rewrite find_map_id by done.
  destruct (find _ nodes); simpl; [apply Hc|done].
Qed.

Lemma links_snoc_unlinked nodes n u :
  NetworkNode.connections n = [] → links (nodes ++ [n]) u = links nodes u.
Proof.
  intros Hn. unfold links. induction nodes as [|m nodes IH]; simpl.
  - destruct (String.eqb _ _); [by rewrite Hn|done].
  - destruct (String.eqb _ _); [done|exact IH].
Qed.

Lemma step_links st e u :
  rewires e = false → links (nodes (step st e)) u = links (nodes st) u.
Proof.
  destruct e; try done; intros _; simpl; try done.
  - unfold sendPacket. by destruct (decide _).
  - by destruct (isSimulating st).
  - apply links_map; intros n; by destruct (is_selected st n).
  - apply links_map; intros n; by destruct (is_selected st n).
  - apply links_map; intros n; by destruct (is_selected st n).
  - apply links_map; intros n; by destruct (is_selected st n).
  - by apply links_snoc_unlinked.
  - destruct scenario; simpl; by apply links_map.
  - by destruct (savedConfigs st !! index).
Qed.

Lemma link_nodes_keeps a b l u v :
  v ∈ links l u → v ∈ links (link_nodes a b l) u.
Proof.
  unfold links, link_nodes.
  rewrite find_map_id by (intros n; by repeat destruct (String.eqb _ _)).
  destruct (find _ l) as [n|]; simpl; [|done].
  intros Hv. repeat destruct (String.eqb _ _); simpl; set_solver.
Qed.

Lemma step_links_kept st e u v :
  replaces_graph e = false →
  v ∈ links (nodes st) u → v ∈ links (nodes (step st e)) u.
Proof.
  intros He Hv. destruct (rewires e) eqn:Hr; [|by rewrite step_links].
  destruct e; try done. simpl. unfold handleNodePress.
  destruct (selectedNode st) as [sel|]; [|done].
  destruct (truthy (Some sel)); [|done].
  destruct (String.eqb sel nodeId); [done|]. simpl. by apply link_nodes_keeps.
Qed.

Lemma ends_map (f : Connection.t → Connection.t) cs :
  (∀ c, ends (f c) = ends c) → map ends (map f cs) = map ends cs.
Proof. intros Hf. rewrite map_map. by apply map_ext. Qed.

Lemma step_ends_kept st e :
  replaces_graph e = false →
  map ends (connections st) `prefix_of` map ends (connections (step st e)).
Proof.
  intros He. destruct e; try done; simpl; try reflexivity.
  - unfold handleNodePress. destruct (selectedNode st) as [sel|]; [|reflexivity].
    destruct (truthy (Some sel)); [|reflexivity].
    destruct (String.eqb sel nodeId); [reflexivity|]. simpl.
    rewrite map_app. by apply prefix_app_r.
  - rewrite ends_map; [reflexivity|]. intros c. by destruct (bool_decide _).
  - unfold sendPacket. by destruct (decide _).
  - by destruct (isSimulating st).
  - destruct scenario; simpl; by rewrite ends_map.
  - by destruct (savedConfigs st !! index).
Qed.

Lemma run_graph_kept es : ∀ st,
  Forall (λ e, replaces_graph e = false) es →
  (∀ u v, v ∈ links (nodes st) u → v ∈ links (nodes (run st es)) u) ∧
  map ends (connections st) `prefix_of` map ends (connections (run st es)).
Proof.
  induction es as [|e es IH]; intros st Hes; [done|].
  apply Forall_cons in Hes as [He Hes]. simpl.
  destruct (IH (step st e) Hes) as [Hl Hc]. split.
  - intros u v Hv. by apply Hl, step_links_kept.
  - etrans; [by apply step_ends_kept|done].
Qed.

(** Claim C6, amended.  With node [a] selected, pressing another existing
    node [b] appends a connection from [a] to [b], puts [b] into the link
    list of [a] and [a] into the link list of [b], and clears the
    selection.  The screen has no operation that removes a connection:
    through any sequence of events with no topology preset and no loading
    of a saved configuration, every id stays in every link list it was in,
    and the connections stay in the list, in place, with their two ends.  A
    preset sets the node list to its own nodes and empties the connection
    list; a load sets both lists to those of the saved configuration. *)
Theorem C6_addConnection_symmetric st :
  (∀ a b,
     selectedNode st = Some a → a ≠ "" → a ≠ b →
     has_node (nodes st) a = true → has_node (nodes st) b = true →
     b ∈ links (nodes (handleNodePress b st)) a ∧
     a ∈ links (nodes (handleNodePress b st)) b ∧
     (∃ c, last (connections (handleNodePress b st)) = Some c ∧
           Connection.from c = a ∧ Connection.to c = b) ∧
     selectedNode (handleNodePress b st) = None) ∧
  (∀ es, Forall (λ e, replaces_graph e = false) es →
     (∀ u v, v ∈ links (nodes st) u → v ∈ links (nodes (run st es)) u) ∧
     map ends (connections st) `prefix_of` map ends (connections (run st es))) ∧
  (∀ topology,
     nodes (step st (ApplyTopology topology)) = create topology ∧
     connections (step st (ApplyTopology topology)) = []) ∧
  (∀ i config, savedConfigs st !! i = Some config →
     nodes (step st (LoadConfig i)) = NetworkConfig.nodes config ∧
     connections (step st (LoadConfig i)) = NetworkConfig.connections config).
Proof.
  split; [|split; [|split]].
  - intros a b Hsel Ha Hab Hna Hnb. unfold handleNodePress. rewrite Hsel. simpl.
    destruct (String.eqb_spec a "") as [?|_]; [done|]. simpl.
    destruct (String.eqb_spec a b) as [?|_]; [done|]. simpl.
    split; [by apply link_nodes_links|]. split; [by apply link_nodes_links|].
    split; [|done]. eexists. by rewrite last_snoc.
  - intros es. apply run_graph_kept.
  - done.
  - intros i config Hi. simpl. by rewrite Hi.
Qed.

(** The link H1-H4, made by two presses, survives a scenario, an added
    node and further presses. *)
Lemma C6_witness :
  ("H4" ∈ links (nodes (run initialState [PressNode "H1"; PressNode "H4"])) "H1" ∧
   "H1" ∈ links (nodes (run initialState [PressNode "H1"; PressNode "H4"])) "H4") ∧
  "H4" ∈ links (nodes (run (run initialState [PressNode "H1"; PressNode "H4"])
                         [ApplyScenario failure (λ l, l); AddNode;
                          PressNode "H4"; PressNode "R1"])) "H1".
Proof.
  split.
  - destruct (C6_addConnection_symmetric (step initialState (PressNode "H1")))
      as [Hadd _].
    destruct (Hadd "H1" "H4") as (Hab & Hba & _);
      [reflexivity|discriminate|discriminate|reflexivity..|].
    split; [exact Hab|exact Hba].
  - destruct (C6_addConnection_symmetric
                (run initialState [PressNode "H1"; PressNode "H4"]))
      as (_ & Hkept & _).
    destruct (Hkept [ApplyScenario failure (λ l, l); AddNode;
                     PressNode "H4"; PressNode "R1"]) as [Hl _].
    + by repeat constructor.
    + apply Hl. apply (list_elem_of_lookup_2 _ 1). reflexivity.
Defined.

(** Claim C6, as stated, fails in its second half: there is no
    [removeConnection].  From the initial state no event leaves the nodes R1
    and S1 in place with the link between them gone on both sides. *)
Lemma C6_counterexample :
  ¬ ∃ e,
      has_node (nodes (step initialState e)) "R1" = true ∧
      has_node (nodes (step initialState e)) "S1" = true ∧
      ("S1" ∉ links (nodes (step initialState e)) "R1") ∧
      ("R1" ∉ links (nodes (step initialState e)) "S1").
Proof.
  intros (e & _ & HS1 & Hgone & _).
  assert (Hsend : ∀ s d data idNow tsNow,
            nodes (sendPacket s d data idNow tsNow initialState) = initialNodes).
  { intros. unfold sendPacket. by destruct (decide _). }
  destruct e as [| | | | |s d data idNow tsNow| | | | | | | | | | |topology
                 |scenario shuffle| | | | |];
    cbn [step] in HS1, Hgone; rewrite ?Hsend in HS1, Hgone;
    try destruct topology; try destruct scenario;
    try (apply Hgone; lazy; apply list_elem_of_here).
  (* the mesh preset has no node S1 *)
  lazy in HS1. discriminate HS1.
Qed.

(** ** Scenarios *)

(** Claim C8, amended.  The congestion scenario is a function of the nodes
    and connections alone: neither the random order that the failure
    scenario consumes nor the rest of the state has any influence on the
    nodes, connections and filters it gives.  It keeps the nodes and
    connections in place, sets the status of each to active, multiplies
    latency by 3 and packet loss by 2 on both (an undefined value of a node
    becomes NaN), multiplies the bandwidth of every connection by 0.5 and
    keeps the bandwidth of every node, and leaves no packet filter. *)
Theorem C8_congestion_deterministic st shuffle shuffle' :
  step st (ApplyScenario congestion shuffle)
  = step st (ApplyScenario congestion shuffle') ∧
  (∀ st', nodes st' = nodes st → connections st' = connections st →
     nodes (step st' (ApplyScenario congestion shuffle'))
     = nodes (step st (ApplyScenario congestion shuffle)) ∧
     connections (step st' (ApplyScenario congestion shuffle'))
     = connections (step st (ApplyScenario congestion shuffle)) ∧
     packetFilters (step st' (ApplyScenario congestion shuffle'))
     = packetFilters (step st (ApplyScenario congestion shuffle))) ∧
  (∀ i node, nodes st !! i = Some node →
     ∃ node', nodes (step st (ApplyScenario congestion shuffle)) !! i = Some node' ∧
       NetworkNode.id node' = NetworkNode.id node ∧
       NetworkNode.type node' = NetworkNode.type node ∧
       NetworkNode.connections node' = NetworkNode.connections node ∧
       NetworkNode.ip node' = NetworkNode.ip node ∧
       NetworkNode.bandwidth node' = NetworkNode.bandwidth node ∧
       NetworkNode.status node' = NetworkNode.active ∧
       (∀ x, NetworkNode.latency node = Some x →
             NetworkNode.latency node' = Some (x * 3)%float) ∧
       (NetworkNode.latency node = None → NetworkNode.latency node' = Some nan) ∧
       (∀ x, NetworkNode.packetLoss node = Some x →
             NetworkNode.packetLoss node' = Some (x * 2)%float) ∧
       (NetworkNode.packetLoss node = None →
        NetworkNode.packetLoss node' = Some nan)) ∧
  (∀ i conn, connections st !! i = Some conn →
     ∃ conn', connections (step st (ApplyScenario congestion shuffle)) !! i
              = Some conn' ∧
       Connection.id conn' = Connection.id conn ∧
       Connection.from conn' = Connection.from conn ∧
       Connection.to conn' = Connection.to conn ∧
       Connection.status conn' = Connection.active ∧
       Connection.latency conn' = (Connection.latency conn * 3)%float ∧
       Connection.packetLoss conn' = (Connection.packetLoss conn * 2)%float ∧
       Connection.bandwidth conn' = (Connection.bandwidth conn * 0.5)%float) ∧
  length (nodes (step st (ApplyScenario congestion shuffle))) = length (nodes st) ∧
  length (connections (step st (ApplyScenario congestion shuffle)))
  = length (connections st) ∧
  packetFilters (step st (ApplyScenario congestion shuffle)) = ∅.
Proof.
  split; [reflexivity|]. simpl.
  split; [|split; [|split; [|split; [|split]]]].
  - intros st' -> ->. done.
  - intros i node Hi. exists (congest_node node). split.
    + change (map congest_node (nodes st)) with (congest_node <$> nodes st).
      by rewrite list_lookup_fmap, Hi.
    + simpl. repeat split; try done.
      * by intros x ->.
      * by intros ->.
      * by intros x ->.
      * by intros ->.
  - intros i conn Hi. exists (congest_connection conn). split; [|by repeat split].
    change (map congest_connection (connections st))
      with (congest_connection <$> connections st).
    by rewrite list_lookup_fmap, Hi.
  - apply length_map.
  - apply length_map.
  - reflexivity.
Qed.

(** On the initial topology with a link H1-H4 added: the router R1 goes from
    latency 5 and loss 0.1 to 15 and 0.2 and keeps its bandwidth of 1000;
    the new connection goes from 100, 1 and 0.05 to 50, 3 and 0.1. *)
Lemma C8_witness :
  (∃ node',
     nodes (step (run initialState [PressNode "H1"; PressNode "H4"])
              (ApplyScenario congestion (λ l, l))) !! 0 = Some node' ∧
     NetworkNode.bandwidth node' = Some 1000%float ∧
     NetworkNode.latency node' = Some 15%float ∧
     NetworkNode.packetLoss node' = Some 0.2%float) ∧
  (∃ conn',
     connections (step (run initialState [PressNode "H1"; PressNode "H4"])
                    (ApplyScenario congestion (λ l, l))) !! 0 = Some conn' ∧
     Connection.bandwidth conn' = 50%float ∧
     Connection.latency conn' = 3%float ∧
     Connection.packetLoss conn' = 0.1%float).
Proof.
  destruct (C8_congestion_deterministic
              (run initialState [PressNode "H1"; PressNode "H4"]) (λ l, l) (λ l, l))
    as (_ & _ & Hnodes & Hconns & _).
  split.
  - destruct (Hnodes 0 (NetworkNode.mk "R1" NetworkNode.router ["S1"; "R2"]
                          NetworkNode.active (Some "192.168.1.1") (Some 1000%float)
                          (Some 5%float) (Some 0.1%float)) eq_refl)
      as (node' & Hl & _ & _ & _ & _ & Hb & _ & Hlat & _ & Hloss & _).
    exists node'. split; [exact Hl|]. split; [exact Hb|].
    split; [exact (Hlat 5%float eq_refl)|exact (Hloss 0.1%float eq_refl)].
  - destruct (Hconns 0 (Connection.mk "C1" "H1" "H4" 100 1 0.05 Connection.active)
                eq_refl)
      as (conn' & Hl & _ & _ & _ & _ & Hlat & Hloss & Hb).
    exists conn'. split; [exact Hl|]. split; [exact Hb|]. split; [exact Hlat|exact Hloss].
Defined.

(** Claim C8, as stated, fails for the bandwidth of the nodes: the router R1
    has bandwidth 1000 before the scenario and 1000 after it, not 500. *)
Lemma C8_counterexample :
  ∃ node node',
    nodes initialState !! 0 = Some node ∧
    nodes (step initialState (ApplyScenario congestion (λ l, l))) !! 0 = Some node' ∧
    NetworkNode.id node = "R1" ∧ NetworkNode.id node' = "R1" ∧
    NetworkNode.bandwidth node = Some 1000%float ∧
    NetworkNode.bandwidth node' = Some 1000%float ∧
    NetworkNode.bandwidth node' ≠ Some (1000 * 0.5)%float.
Proof.
  eexists _, _. split; [reflexivity|]. split; [reflexivity|].
  split; [reflexivity|]. split; [reflexivity|]. split; [reflexivity|].
  split; [reflexivity|]. intros H.
  apply (f_equal (λ o, match o with Some x => PrimFloat.ltb x 600 | None => false end))
    in H.
  vm_compute in H. discriminate H.
Qed.

(** ** Statistics *)

Lemma stat_own_app k l l' :
  stat_own k (l ++ l')
  = match stat_own k l with Some v => Some v | None => stat_own k l' end.
Proof.
  induction l as [|[k0 v] l IH]; simpl; [done|].
  by destruct (String.eqb k0 k).
Qed.

Lemma stat_own_insert_same k v l :
  stat_own k l = None → stat_own k (stat_insert k v l) = Some v.
Proof.
  unfold stat_insert. destruct (array_index k) as [i|].
  - induction l as [|[k0 v0] l IH]; simpl; intros Hk.
    + by rewrite String.eqb_refl.
    + destruct (String.eqb k0 k) eqn:He; [done|].
      destruct (array_index k0) as [j|]; [destruct (j <? i)%N|]; simpl;
        rewrite ?He, ?String.eqb_refl; auto.
  - intros Hk. rewrite stat_own_app, Hk. simpl. by rewrite String.eqb_refl.
Qed.

Lemma stat_own_insert_other k k' v l :
  k ≠ k' → stat_own k (stat_insert k' v l) = stat_own k l.
Proof.
  intros Hne.
  assert (He : String.eqb k' k = false) by (apply String.eqb_neq; congruence).
  unfold stat_insert. destruct (array_index k') as [i|].
  - induction l as [|[k0 v0] l IH]; simpl; [by rewrite He|].
    destruct (array_index k0) as [j|]; [destruct (j <? i)%N|]; simpl;
      rewrite ?He, ?IH; done.
  - rewrite stat_own_app. simpl. rewrite He. by destruct (stat_own k l).
Qed.

Lemma stat_insert_keys k v l : map fst (stat_insert k v l) ≡ₚ k :: map fst l.
Proof.
  unfold stat_insert. destruct (array_index k) as [i|].
  - induction l as [|[k0 v0] l IH]; simpl; [done|].
    destruct (array_index k0) as [j|]; [destruct (j <? i)%N|]; simpl; try done.
    rewrite IH. apply Permutation_swap.
  - rewrite map_app. simpl. symmetry. apply Permutation_cons_append.
Qed.

Lemma stat_own_init_same k l :
  inherited k = false →
  stat_own k (stat_init k l) = Some (default zeroStat (stat_own k l)).
Proof.
  intros Hk. unfold stat_init, stat_get. destruct (stat_own k l) as [v|] eqn:Ho.
  - by rewrite Ho.
  - rewrite Hk. by apply stat_own_insert_same.
Qed.

Lemma stat_init_inherited k l : inherited k = true → stat_init k l = l.
Proof. unfold stat_init, stat_get. intros ->. by destruct (stat_own k l). Qed.

Lemma stat_own_alter f k k' l :
  stat_own k (stat_alter f k' l)
  = if String.eqb k' k then f <$> stat_own k l else stat_own k l.
Proof.
  induction l as [|[k0 v] l IH]; simpl; [by destruct (String.eqb k' k)|].
  destruct (String.eqb_spec k0 k') as [->|Hne]; simpl.
  - destruct (String.eqb_spec k' k) as [->|Hne']; [done|]. done.
  - destruct (String.eqb_spec k0 k) as [->|Hne'].
    + destruct (String.eqb_spec k' k) as [->|_]; done.
    + exact IH.
Qed.

Lemma stat_own_init_other k k' l :
  k ≠ k' → stat_own k (stat_init k' l) = stat_own k l.
Proof.
  intros Hne. unfold stat_init. destruct (stat_get k' l); try done.
  by apply stat_own_insert_other.
Qed.

Lemma stat_init_same_twice k l : stat_init k (stat_init k l) = stat_init k l.
Proof.
  destruct (stat_own k l) as [v|] eqn:Hk.
  - assert (H : stat_init k l = l) by (unfold stat_init, stat_get; by rewrite Hk).
    by rewrite !H.
  - destruct (inherited k) eqn:Hi.
    + by rewrite !stat_init_inherited.
    + assert (H : stat_init k l = stat_insert k zeroStat l)
        by (unfold stat_init, stat_get; by rewrite Hk, Hi).
      rewrite H. unfold stat_init, stat_get. by rewrite stat_own_insert_same.
Qed.

(** The name of a member of [Object.prototype] gets no record. *)
Lemma stat_own_init_inherited k k' l :
  inherited k = true → stat_own k (stat_init k' l) = stat_own k l.
Proof.
  intros Hk. destruct (decide (k = k')) as [<-|Hne].
  - by rewrite stat_init_inherited.
  - by apply stat_own_init_other.
Qed.

(** The destination's counter after [updateNetworkStats]. *)
Lemma updateNetworkStats_received conns pkt prev :
  inherited (Packet.destination pkt) = false →
  received (updateNetworkStats conns pkt prev) (Packet.destination pkt)
  = (received prev (Packet.destination pkt) + 1)%float.
Proof.
  intros Hd. unfold received, updateNetworkStats.
  set (s := Packet.source pkt). set (d := Packet.destination pkt) in *.
  set (l0 := NetworkStats.nodeStats prev).
  cbn [NetworkStats.nodeStats].
  assert (H2 : stat_own d (stat_init d (stat_init s l0))
               = Some (default zeroStat (stat_own d l0))).
  { rewrite stat_own_init_same by done.
    destruct (String.eqb_spec s d) as [->|Hne].
    - by rewrite stat_own_init_same.
    - rewrite stat_own_init_other; [done|congruence]. }
  assert (H4 : ∃ v, stat_own d (stat_alter received_incr d
                       (stat_alter sent_incr s (stat_init d (stat_init s l0))))
                    = Some v ∧
                    NodeStat.packetsReceived v
                    = (NodeStat.packetsReceived (default zeroStat (stat_own d l0)) + 1)%float).
  { rewrite stat_own_alter, String.eqb_refl, stat_own_alter, H2.
    destruct (String.eqb s d); eexists; (split; [reflexivity|reflexivity]). }
  destruct H4 as (v & Hv & Hrecv).
  destruct (find _ conns) as [c|].
  - rewrite stat_own_alter, Hv.
    destruct (String.eqb s d); simpl; exact Hrecv.
  - rewrite Hv. simpl. exact Hrecv.
Qed.

Lemma step_counters st e :
  NetworkStats.successfulPackets (networkStats (step st e))
  = NetworkStats.successfulPackets (networkStats st) ∧
  NetworkStats.droppedPackets (networkStats (step st e))
  = NetworkStats.droppedPackets (networkStats st).
Proof. event_cases e; done. Qed.

Lemma step_stats_frame st e :
  is_send e = false → networkStats (step st e) = networkStats st.
Proof. event_cases e; done. Qed.

Lemma reachable_counters st :
  reachable_state st →
  NetworkStats.successfulPackets (networkStats st) = 0%float ∧
  NetworkStats.droppedPackets (networkStats st) = 0%float.
Proof.
  intros [es ->]. induction es as [|e es IH] using rev_ind; [done|].
  rewrite run_app. simpl. destruct (step_counters (run initialState es) e) as [-> ->].
  exact IH.
Qed.

Lemma reachable_run st es : reachable_state st → reachable_state (run st es).
Proof. intros [es0 ->]. exists (es0 ++ es). by rewrite run_app. Qed.

(** * Further properties *)

(** ** More on [findPath] *)

Lemma findPath_loop_links_ext nodes nodes' d fuel : ∀ queue visited,
  (∀ u, links nodes u = links nodes' u) →
  findPath_loop fuel d nodes queue visited = findPath_loop fuel d nodes' queue visited.
Proof.
  induction fuel as [|fuel IH]; intros queue visited Hl; [done|].
  destruct queue as [|p rest]; [done|].
  rewrite !findPath_loop_unfold. destruct (last p) as [u|]; [|by apply IH].
  destruct (String.eqb u d); [done|]. rewrite Hl. by apply IH.
Qed.

Lemma findPath_loop_fuel_mono nodes d fuel : ∀ fuel' queue visited r,
  findPath_loop fuel d nodes queue visited = Some r → fuel ≤ fuel' →
  findPath_loop fuel' d nodes queue visited = Some r.
Proof.
  induction fuel as [|fuel IH]; intros fuel' queue visited r Hr Hle; [done|].
  destruct fuel' as [|fuel']; [lia|].
  destruct queue as [|p rest]; [done|].
  rewrite findPath_loop_unfold in *. destruct (last p) as [u|].
  - destruct (String.eqb u d); [done|]. apply IH; [done|lia].
  - apply IH; [done|lia].
Qed.

(** [findPath] reads the nodes through their link lists only. *)
Lemma findPath_links_ext nodes nodes' s d :
  (∀ u, links nodes u = links nodes' u) →
  findPath s d nodes = findPath s d nodes'.
Proof.
  intros Hl.
  pose proof (findPath_loop_total s d nodes) as H1.
  pose proof (findPath_loop_total s d nodes') as H2.
  apply (findPath_loop_fuel_mono _ _ _ (findPath_fuel nodes + findPath_fuel nodes')) in H1; [|lia].
  apply (findPath_loop_fuel_mono _ _ _ (findPath_fuel nodes + findPath_fuel nodes')) in H2; [|lia].
  rewrite (findPath_loop_links_ext nodes nodes') in H1 by done. congruence.
Qed.

(** X1.  Routes depend on ids and link lists only.  Apart from pressing a
    node, applying a preset and loading a configuration, no event changes
    the result of [findPath] for any pair: not the scenarios (a node that
    the failure scenario marks inactive is still routed through), not the
    edits of a node or a connection, not a new node. *)
Theorem X1_routes_ignore_status st e s d :
  rewires e = false →
  findPath s d (nodes (step st e)) = findPath s d (nodes st).
Proof. intros He. apply findPath_links_ext. intros u. by apply step_links. Qed.

Lemma X1_witness :
  findPath "H1" "H4"
    (nodes (step initialState (ApplyScenario failure (λ l, l))))
  = ["H1"; "S1"; "R1"; "R2"; "S2"; "H4"] ∧
  map NetworkNode.status
    (nodes (step initialState (ApplyScenario failure (λ l, l))))
  = [NetworkNode.inactive; NetworkNode.inactive; NetworkNode.active;
     NetworkNode.active; NetworkNode.active; NetworkNode.active;
     NetworkNode.active; NetworkNode.active].
Proof.
  split; [|vm_compute; reflexivity].
  rewrite (X1_routes_ignore_status initialState (ApplyScenario failure (λ l, l))
             "H1" "H4" eq_refl).
  vm_compute. reflexivity.
Defined.

Lemma linked_app_iff nodes a x b :
  linked nodes (a ++ x :: b) ↔ linked nodes (a ++ [x]) ∧ linked nodes (x :: b).
Proof.
  induction a as [|y [|z a] IH]; simpl in *.
  - tauto.
  - tauto.
  - rewrite IH. tauto.
Qed.

Lemma linked_snoc nodes p u v :
  linked nodes p → last p = Some u → v ∈ links nodes u → linked nodes (p ++ [v]).
Proof.
  intros Hp Hlast Hv. induction p as [|x [|y p] IH]; simpl in *.
  - done.
  - injection Hlast as ->. done.
  - split; [apply Hp|]. apply IH; [apply Hp|done].
Qed.

Lemma walk_linked nodes s p :
  walk nodes s p → head p = Some s ∧ linked nodes p.
Proof.
  intros Hw. split; [by eapply walk_head|].
  induction Hw as [|p u v _ IH Hlast Hv]; [done|]. by eapply linked_snoc.
Qed.

Lemma linked_walk nodes s t : linked nodes (s :: t) → walk nodes s (s :: t).
Proof.
  induction t as [|v t IH] using rev_ind; intros Hl; [apply walk_start|].
  change (s :: t ++ [v]) with ((s :: t) ++ [v]) in *.
  destruct (last (s :: t)) as [u|] eqn:Hlast.
  2: { by apply last_None in Hlast. }
  apply last_Some in Hlast as [l' Hl'].
  rewrite Hl' in Hl |- *. rewrite <- app_assoc in Hl. simpl in Hl.
  apply linked_app_iff in Hl as [Hl1 Hl2].
  apply (walk_hop _ _ _ u); [|by rewrite last_snoc|apply Hl2].
  rewrite <- Hl'. apply IH. by rewrite Hl'.
Qed.

Lemma links_has_node nodes u v : v ∈ links nodes u → has_node nodes u = true.
Proof.
  unfold links, has_node. destruct (find _ nodes) as [n|] eqn:Hf; [|set_solver].
  intros _. apply find_some in Hf as [Hin Heq].
  apply existsb_exists. eauto.
Qed.

Lemma has_node_elem nodes u :
  has_node nodes u = true → u ∈ map NetworkNode.id nodes.
Proof.
  unfold has_node. intros (n & Hin & Heq)%existsb_exists.
  apply String.eqb_eq in Heq as <-. by apply list_elem_of_In, in_map.
Qed.

Lemma linked_lookup nodes p i u v :
  linked nodes p → p !! i = Some u → p !! S i = Some v → v ∈ links nodes u.
Proof.
  revert i; induction p as [|x [|y p] IH]; intros i Hl Hu Hv; [done|by destruct i|].
  destruct i as [|i]; simpl in *.
  - injection Hu as <-. injection Hv as <-. apply Hl.
  - eapply IH; [apply Hl|done..].
Qed.

Lemma repeated_split (l : list string) :
  ¬ NoDup l → ∃ l1 x l2 l3, l = l1 ++ x :: l2 ++ x :: l3.
Proof.
  induction l as [|x l IH]; intros Hnd; [destruct Hnd; constructor|].
  destruct (decide (x ∈ l)) as [Hin|Hnin].
  - apply list_elem_of_split in Hin as (l2 & l3 & ->). by exists [], x, l2, l3.
  - destruct IH as (l1 & y & l2 & l3 & ->).
    { intros Hl. apply Hnd. by constructor. }
    by exists (x :: l1), y, l2, l3.
Qed.

(** A walk that visits a node twice can be cut short. *)
Lemma walk_shortcut nodes s d l1 x l2 l3 :
  walk nodes s (l1 ++ x :: l2 ++ x :: l3) →
  last (l1 ++ x :: l2 ++ x :: l3) = Some d →
  walk nodes s (l1 ++ x :: l3) ∧ last (l1 ++ x :: l3) = Some d.
Proof.
  intros [Hhead Hl]%walk_linked Hlast. split.
  - apply linked_app_iff in Hl as [Hl1 Hl2].
    change (x :: l2 ++ x :: l3) with ((x :: l2) ++ x :: l3) in Hl2.
    apply linked_app_iff in Hl2 as [_ Hl3].
    assert (Hq : linked nodes (l1 ++ x :: l3)) by (by apply linked_app_iff).
    destruct l1 as [|y l1]; simpl in *; injection Hhead as ->; by apply linked_walk.
  - rewrite last_app in Hlast |- *. simpl in *.
    rewrite last_cons, last_app in Hlast. simpl in Hlast.
    rewrite last_cons. rewrite last_cons in Hlast.
    destruct (last l3); simpl in *; [done|].
    by destruct (last l2).
Qed.

(** Every id on the returned path has a successor taken from its link
    list, so every id but the last belongs to a node. *)
Lemma findPath_inner_nodes nodes s d i u :
  findPath s d nodes !! i = Some u → S i < length (findPath s d nodes) →
  has_node nodes u = true.
Proof.
  destruct (findPath_spec nodes s d) as [[-> _]|(Hw & _ & _)]; [done|].
  intros Hu Hi. destruct (lookup_lt_is_Some_2 _ (S i) Hi) as [v Hv].
  apply walk_linked in Hw as [_ Hl].
  eapply links_has_node, linked_lookup; done.
Qed.

(** X2.  The path [findPath] returns never visits a node twice; every id on
    it except the last is the id of a node; and it has at most one id more
    than there are nodes. *)
Theorem X2_path_simple nodes s d :
  NoDup (findPath s d nodes) ∧
  (∀ i u, findPath s d nodes !! i = Some u →
          S i < length (findPath s d nodes) → has_node nodes u = true) ∧
  length (findPath s d nodes) ≤ S (length nodes).
Proof.
  pose proof (findPath_inner_nodes nodes s d) as Hex.
  destruct (findPath_spec nodes s d) as [[-> _]|(Hw & Hlast & Hmin)].
  { split; [constructor|]. split; [done|simpl; lia]. }
  set (p := findPath s d nodes) in *.
  assert (Hnd : NoDup p).
  { destruct (decide (NoDup p)) as [|Hrep]; [done|exfalso].
    apply repeated_split in Hrep as (l1 & x & l2 & l3 & Hp).
    rewrite Hp in Hw, Hlast.
    destruct (walk_shortcut _ _ _ _ _ _ _ Hw Hlast) as [Hw' Hlast'].
    destruct (Hmin _ Hw' Hlast') as [Heq|Hb].
    - apply (f_equal length) in Heq. rewrite Hp, !length_app in Heq.
      simpl in Heq. rewrite length_app in Heq. simpl in Heq. lia.
    - apply before_length in Hb. rewrite Hp, !length_app in Hb.
      simpl in Hb. rewrite length_app in Hb. simpl in Hb. lia. }
  split; [done|]. split; [done|].
  destruct (last p) as [d'|] eqn:Hl; [|done].
  apply last_Some in Hl as [init Hp]. rewrite Hp, length_app. simpl.
  rewrite Hp in Hnd, Hex. apply NoDup_app in Hnd as (Hinit & _ & _).
  assert (Hsub : init ⊆+ map NetworkNode.id nodes).
  { apply NoDup_submseteq; [done|]. intros u Hu.
    apply list_elem_of_lookup in Hu as [i Hi]. apply has_node_elem.
    apply (Hex i); [by apply lookup_app_l_Some|].
    apply lookup_lt_Some in Hi. rewrite length_app. simpl. lia. }
  apply submseteq_length in Hsub. rewrite length_map in Hsub. lia.
Qed.

(** X3.  When the source is the destination, or the source is not the id of
    any node, [findPath] does not search: it returns the one-id path for
    equal ends (whether or not such a node exists) and the empty path
    otherwise. *)
Theorem X3_findPath_degenerate nodes s d :
  has_node nodes s = false ∨ s = d →
  findPath s d nodes = if decide (s = d) then [s] else [].
Proof.
  intros Hcase.
  assert (Hsome : findPath_loop (findPath_fuel nodes) d nodes [[s]] ∅
                  = Some (if decide (s = d) then [s] else [])).
  { unfold findPath_fuel. rewrite findPath_loop_unfold. simpl.
    destruct (String.eqb_spec s d) as [->|Hne].
    - by destruct (decide (d = d)).
    - destruct (decide (s = d)); [done|]. destruct Hcase as [Hno|?]; [|done].
      assert (links nodes s = []) as ->; [|done].
      destruct (links nodes s) as [|v l] eqn:Hl; [done|].
      assert (has_node nodes s = true); [|congruence].
      apply (links_has_node nodes s v). rewrite Hl. by left. }
  rewrite findPath_loop_total in Hsome. by injection Hsome.
Qed.

Lemma X3_witness :
  findPath "Z" "Z" initialNodes = ["Z"] ∧ findPath "Z" "H1" initialNodes = [].
Proof.
  split.
  - apply (X3_findPath_degenerate initialNodes "Z" "Z"). right. reflexivity.
  - apply (X3_findPath_degenerate initialNodes "Z" "H1"). left. reflexivity.
Defined.

(** ** Time to delivery and what is drawn *)

Lemma iter_tick_closed n pkt :
  Packet.status pkt = Packet.moving → Packet.currentPosition pkt = 0 →
  Packet.path pkt ≠ [] →
  Packet.currentPosition (Nat.iter n tick_packet pkt)
  = Nat.min n (length (Packet.path pkt) - 1) ∧
  Packet.status (Nat.iter n tick_packet pkt)
  = (if decide (n < length (Packet.path pkt)) then Packet.moving else Packet.delivered).
Proof.
  intros Hs Hpos Hne.
  assert (HL : 1 ≤ length (Packet.path pkt)) by (destruct (Packet.path pkt); simpl; [done|lia]).
  induction n as [|n [IHp IHs]].
  - simpl. rewrite Hpos, Hs. by destruct (decide _); [|lia].
  - rewrite Nat.iter_succ.
    pose proof (iter_tick_route n pkt) as (_ & _ & _ & _ & Hpath & _).
    unfold tick_packet at 1 3. rewrite IHs, IHp, Hpath.
    destruct (decide (n < length (Packet.path pkt))) as [Hlt|Hge].
    + destruct (decide (length (Packet.path pkt) ≤ Nat.min n _ + 1)) as [Hle|Hgt];
        cbn [Packet.currentPosition Packet.status].
      * split; [lia|]. destruct (decide _); [lia|done].
      * split; [lia|]. destruct (decide (S n < _)); [done|lia].
    + rewrite IHp. split; [lia|]. destruct (decide (S n < _)); [lia|done].
Qed.

Lemma run_ticks n : ∀ st,
  isSimulating st = true →
  packets (run st (replicate n Tick)) = Nat.iter n tick (packets st) ∧
  nodes (run st (replicate n Tick)) = nodes st.
Proof.
  induction n as [|n IH]; intros st Hsim; [done|].
  simpl. rewrite Hsim.
  destruct (IH (set_packets tick st) Hsim) as [-> ->].
  split; [|done]. simpl. by rewrite <- Nat.iter_succ_r.
Qed.

Lemma has_node_find_some nodes u :
  has_node nodes u = true →
  is_Some (find (λ n, String.eqb (NetworkNode.id n) u) nodes).
Proof. intros (n & -> & _)%has_node_find. by eexists. Qed.

(** X4.  While the simulation runs, a packet made by [sendPacket] with a
    path of [L] ids is, after [n] ticks, at position [min n (L-1)]; it is
    moving for the first [L] ticks and delivered from then on.  When the
    destination is a node, [renderPacket] draws it exactly as long as
    [n + 1 < L]: on its last moving tick it rests at the destination and is
    not drawn. *)
Theorem X4_delivery_time st s d data idNow tsNow n :
  isSimulating st = true →
  findPath s d (nodes st) ≠ [] →
  ∃ pkt,
    packets (run (sendPacket s d data idNow tsNow st) (replicate n Tick))
      !! length (packets st) = Some pkt ∧
    Packet.currentPosition pkt = Nat.min n (length (findPath s d (nodes st)) - 1) ∧
    Packet.status pkt
    = (if decide (n < length (findPath s d (nodes st)))
       then Packet.moving else Packet.delivered) ∧
    (has_node (nodes st) d = true →
     is_Some (renderPacket
                (nodes (run (sendPacket s d data idNow tsNow st) (replicate n Tick)))
                pkt)
     ↔ S n < length (findPath s d (nodes st))).
Proof.
  intros Hsim Hne.
  set (p := findPath s d (nodes st)) in *.
  set (pkt0 := newPacket s d data p (packetType st) idNow tsNow).
  assert (Hst : isSimulating (sendPacket s d data idNow tsNow st) = true).
  { unfold sendPacket. by destruct (decide _). }
  assert (Hnodes : nodes (sendPacket s d data idNow tsNow st) = nodes st).
  { unfold sendPacket. by destruct (decide _). }
  destruct (run_ticks n _ Hst) as [Hpk Hnd].
  exists (Nat.iter n tick_packet pkt0).
  destruct (iter_tick_closed n pkt0 eq_refl eq_refl Hne) as [Hpos Hstat].
  pose proof (iter_tick_route n pkt0) as (_ & _ & _ & _ & Hpath & _).
  change (Packet.path pkt0) with p in *.
  split; [|split; [done|split; [done|]]].
  { rewrite Hpk. apply iter_tick_lookup. by apply send_packet_at. }
  intros Hd. rewrite Hnd, Hnodes. unfold renderPacket.
  rewrite Hstat, Hpos, Hpath.
  destruct (decide (n < length p)) as [Hlt|Hge]; [|split; [by intros []|lia]].
  destruct (decide (length p ≤ Nat.min n (length p - 1) + 1)) as [Hle|Hgt];
    [split; [by intros []|lia]|].
  split; [lia|intros _].
  assert (Hmin : Nat.min n (length p - 1) = n) by lia. rewrite Hmin.
  destruct (lookup_lt_is_Some_2 p n) as [a Ha]; [lia|].
  destruct (lookup_lt_is_Some_2 p (n + 1)) as [b Hb]; [lia|].
  rewrite Ha, Hb.
  pose proof (findPath_inner_nodes (nodes st) s d) as Hex. fold p in Hex.
  destruct (has_node_find_some (nodes st) a) as [na ->]; [apply (Hex n); [done|lia]|].
  assert (Hbn : has_node (nodes st) b = true).
  { destruct (decide (S (n + 1) < length p)) as [?|Hend]; [by apply (Hex (n + 1))|].
    destruct (findPath_spec (nodes st) s d) as [[Hnil _]|(_ & Hlast & _)]; [done|].
    fold p in Hlast. rewrite last_lookup in Hlast.
    replace (pred (length p)) with (n + 1) in Hlast by lia. congruence. }
  destruct (has_node_find_some (nodes st) b Hbn) as [nb ->]. by eexists.
Qed.

Lemma X4_witness :
  ∃ pkt,
    packets (run (sendPacket "A" "C" "hello" 7%N 7%N lineState) (replicate 2 Tick))
      !! 0 = Some pkt ∧
    Packet.currentPosition pkt = 2 ∧ Packet.status pkt = Packet.moving ∧
    ¬ is_Some (renderPacket
                 (nodes (run (sendPacket "A" "C" "hello" 7%N 7%N lineState)
                           (replicate 2 Tick))) pkt).
Proof.
  assert (Hne : findPath "A" "C" (nodes lineState) ≠ [])
    by (vm_compute; discriminate).
  assert (Hlen : length (findPath "A" "C" (nodes lineState)) = 3)
    by (vm_compute; reflexivity).
  destruct (X4_delivery_time lineState "A" "C" "hello" 7%N 7%N 2 eq_refl Hne)
    as (pkt & Hpkt & Hpos & Hstat & Hdrawn).
  rewrite Hlen in Hpos, Hstat, Hdrawn.
  exists pkt. split; [exact Hpkt|]. split; [exact Hpos|]. split; [exact Hstat|].
  intros Hsome. apply Hdrawn in Hsome; [lia|reflexivity].
Defined.

(** ** Pressing nodes *)

(** X5.  Pressing a node twice in a row, starting with nothing selected,
    gives back the state as it was: the first press selects, the second
    clears the selection and adds neither a link nor a connection. *)
Theorem X5_press_twice st a :
  selectedNode st = None → a ≠ "" →
  handleNodePress a (handleNodePress a st) = st.
Proof.
  intros Hsel Ha. destruct st; simpl in *; subst.
  unfold handleNodePress; simpl.
  destruct (String.eqb_spec a "") as [?|_]; [done|]. simpl.
  by rewrite String.eqb_refl.
Qed.

Lemma X5_witness :
  run initialState [PressNode "H1"; PressNode "H1"] = initialState.
Proof.
  apply (X5_press_twice initialState "H1"); [reflexivity|discriminate].
Defined.

Lemma link_nodes_id a b l :
  map NetworkNode.id (link_nodes a b l) = map NetworkNode.id l.
Proof.
  unfold link_nodes. rewrite map_map. apply map_ext. intros n.
  by repeat destruct (String.eqb _ _).
Qed.

Lemma has_node_ids l l' u :
  map NetworkNode.id l = map NetworkNode.id l' → has_node l u = has_node l' u.
Proof.
  unfold has_node. revert l'; induction l as [|n l IH]; intros [|n' l'] Heq;
    try done. simpl in *. injection Heq as -> Heq. f_equal. by apply IH.
Qed.

(** X6.  [handleNodePress] does not check that the selected node still
    exists.  When the selection is an id that no node carries (a preset has
    replaced the nodes since), pressing a node [b] still appends a
    connection from that id and puts the id into the link list of [b]: a
    link to nowhere, with no link back. *)
Theorem X6_stale_selection st a b :
  selectedNode st = Some a → a ≠ "" → a ≠ b →
  has_node (nodes st) a = false → has_node (nodes st) b = true →
  a ∈ links (nodes (handleNodePress b st)) b ∧
  has_node (nodes (handleNodePress b st)) a = false ∧
  links (nodes (handleNodePress b st)) a = [] ∧
  (∃ c, last (connections (handleNodePress b st)) = Some c ∧
        Connection.from c = a ∧ Connection.to c = b).
Proof.
  intros Hsel Ha Hab Hna (nb & Hnb & Hb)%has_node_find.
  unfold handleNodePress. rewrite Hsel. simpl.
  destruct (String.eqb_spec a "") as [?|_]; [done|]. simpl.
  destruct (String.eqb_spec a b) as [?|_]; [done|]. simpl.
  assert (Hna' : has_node (link_nodes a b (nodes st)) a = false).
  { by rewrite (has_node_ids _ (nodes st)) by apply link_nodes_id. }
  split; [|split; [done|split]].
  - unfold links, link_nodes. rewrite find_map_id, Hnb; simpl.
    + rewrite Hb, String.eqb_refl.
      destruct (String.eqb_spec b a) as [?|_]; [done|]. simpl. set_solver.
    + intros n. by repeat destruct (String.eqb _ _).
  - destruct (links (link_nodes a b (nodes st)) a) as [|v l] eqn:Hl; [done|].
    assert (has_node (link_nodes a b (nodes st)) a = true); [|congruence].
    apply (links_has_node _ a v). rewrite Hl. by left.
  - eexists. by rewrite last_snoc.
Qed.

(** Reached by opening H1, switching to the mesh preset and pressing R1. *)
Lemma X6_witness :
  "H1" ∈ links (nodes (run initialState
                         [OpenNode "H1"; ApplyTopology mesh; PressNode "R1"])) "R1" ∧
  has_node (nodes (run initialState
                     [OpenNode "H1"; ApplyTopology mesh; PressNode "R1"])) "H1" = false.
Proof.
  destruct (X6_stale_selection
              (run initialState [OpenNode "H1"; ApplyTopology mesh]) "H1" "R1")
    as (Hlink & Hnone & _); [reflexivity|discriminate|discriminate|reflexivity..|].
  split; [exact Hlink|exact Hnone].
Defined.

(** ** Invariants of the nodes and connections *)

Lemma step_savedConfigs st e :
  touches_configs e = false → savedConfigs (step st e) = savedConfigs st.
Proof. intros He. event_cases e; done. Qed.

Section graph_invariant.
Variable P : list NetworkNode.t → list Connection.t → Prop.
Hypothesis P_local : ∀ st e,
  touches_configs e = false → P (nodes st) (connections st) →
  P (nodes (step st e)) (connections (step st e)).

(** A property of the nodes and connections that the events keep is kept
    through saving and loading too. *)
Lemma step_graph_invariant st e :
  P (nodes st) (connections st) ∧
  Forall (λ c, P (NetworkConfig.nodes c) (NetworkConfig.connections c)) (savedConfigs st) →
  P (nodes (step st e)) (connections (step st e)) ∧
  Forall (λ c, P (NetworkConfig.nodes c) (NetworkConfig.connections c))
    (savedConfigs (step st e)).
Proof.
  intros [Hnow Hsaved]. destruct (touches_configs e) eqn:He.
  - destruct e; try done; simpl.
    + split; [done|]. apply Forall_app. split; [done|]. by constructor.
    + destruct (savedConfigs st !! index) as [c|] eqn:Hc; [|done].
      split; [|done]. simpl. rewrite Forall_forall in Hsaved.
      by eapply Hsaved, list_elem_of_lookup_2.
    + destruct (savedConfigs st !! index) as [c|]; [|done].
      split; [done|]. simpl. rewrite Forall_forall in Hsaved |- *.
      intros c' [_ Hc']%list_elem_of_filter. by apply Hsaved.
  - split; [by apply P_local|]. by rewrite step_savedConfigs.
Qed.

Lemma reachable_graph_invariant st :
  P initialNodes [] → reachable_state st → P (nodes st) (connections st).
Proof.
  intros Hinit [es ->].
  assert (P (nodes (run initialState es)) (connections (run initialState es)) ∧
          Forall (λ c, P (NetworkConfig.nodes c) (NetworkConfig.connections c))
            (savedConfigs (run initialState es))) as [? _]; [|done].
  induction es as [|e es IH] using rev_ind.
  - split; [done|constructor].
  - rewrite run_app. by apply step_graph_invariant.
Qed.
End graph_invariant.

Lemma numbered_map (f : Connection.t → Connection.t) cs :
  (∀ c, Connection.id (f c) = Connection.id c) → numbered cs → numbered (map f cs).
Proof.
  intros Hf Hn i c. change (map f cs) with (f <$> cs). rewrite list_lookup_fmap.
  destruct (cs !! i) as [c0|] eqn:Hc; [|done]. simpl. intros [= <-].
  rewrite Hf. by apply Hn.
Qed.

Lemma numbered_step st e :
  touches_configs e = false → numbered (connections st) →
  numbered (connections (step st e)).
Proof.
  intros He Hn. destruct e; try done; simpl; try done.
  - unfold handleNodePress. destruct (selectedNode st) as [sel|]; [|done].
    destruct (truthy (Some sel)); [|done].
    destruct (String.eqb sel nodeId); [done|]. simpl.
    intros i c Hi. apply lookup_app_Some in Hi as [Hi|[Hlen Hi]]; [by apply Hn|].
    apply list_lookup_singleton_Some in Hi as [Hi <-]. simpl.
    by replace (i + 1) with (length (connections st) + 1) by lia.
  - apply numbered_map; [|done]. intros c. by destruct (bool_decide _).
  - unfold sendPacket. by destruct (decide _).
  - by destruct (isSimulating st).
  - destruct scenario; simpl; by apply numbered_map.
Qed.

Lemma connection_id_inj i j : "C" +:+ pretty (i + 1) = "C" +:+ pretty (j + 1) → i = j.
Proof.
  simpl. intros [= Heq]. change (pretty (i + 1) = pretty (j + 1)) in Heq.
  apply (inj pretty) in Heq. lia.
Qed.

(** X7.  In every state the screen can reach, the connections carry the
    ids C1, C2, ... in list order, so no two share an id; and editing the
    selected connection changes that one connection and no other. *)
Theorem X7_connection_ids st :
  reachable_state st →
  numbered (connections st) ∧
  NoDup (map Connection.id (connections st)) ∧
  (∀ i c updates, connections st !! i = Some c →
     connections (run st [PressConnection (Connection.id c); EditConnection updates])
     = <[i := merge_connection updates c]> (connections st)).
Proof.
  intros Hreach.
  assert (Hn : numbered (connections st)).
  { apply (reachable_graph_invariant (λ _ cs, numbered cs)); [|by intros i c|done].
    intros st' e. apply numbered_step. }
  split; [done|]. split.
  - apply NoDup_alt. intros i j x Hi Hj.
    change (map Connection.id (connections st)) with (Connection.id <$> connections st) in *.
    rewrite list_lookup_fmap in Hi, Hj.
    destruct (connections st !! i) as [ci|] eqn:Hci; [|done].
    destruct (connections st !! j) as [cj|] eqn:Hcj; [|done].
    simpl in *. injection Hi as <-. injection Hj as Hj.
    apply Hn in Hci, Hcj. apply connection_id_inj. congruence.
  - intros i c updates Hi. simpl. apply list_eq. intros j.
    change (map ?f (connections st)) with (f <$> connections st).
    rewrite list_lookup_fmap.
    destruct (decide (j = i)) as [->|Hne].
    + rewrite list_lookup_insert_eq by (by eapply lookup_lt_Some).
      rewrite Hi. simpl. by rewrite bool_decide_eq_true_2.
    + rewrite list_lookup_insert_ne by done.
      destruct (connections st !! j) as [cj|] eqn:Hcj; [|done]. simpl.
      rewrite bool_decide_eq_false_2; [done|].
      intros [= Heq]. apply Hn in Hi, Hcj. apply Hne, connection_id_inj. congruence.
Qed.

Lemma X7_witness :
  NoDup (map Connection.id
           (connections (run initialState
                           [PressNode "H1"; PressNode "H4"; PressNode "H2";
                            PressNode "H3"; ApplyScenario congestion (λ l, l)]))).
Proof.
  apply (X7_connection_ids
           (run initialState
              [PressNode "H1"; PressNode "H4"; PressNode "H2"; PressNode "H3";
               ApplyScenario congestion (λ l, l)])).
  eexists. reflexivity.
Defined.

Lemma grown_ids ns ns' :
  map NetworkNode.id ns' = map NetworkNode.id ns → grown ns → grown ns'.
Proof. intros Heq (base & m & Hb & Hm). exists base, m. by rewrite Heq. Qed.

Lemma grown_map (f : NetworkNode.t → NetworkNode.t) ns :
  (∀ n, NetworkNode.id (f n) = NetworkNode.id n) → grown ns → grown (map f ns).
Proof.
  intros Hf. apply grown_ids. rewrite map_map. by apply map_ext.
Qed.

Lemma grown_step st e :
  touches_configs e = false → grown (nodes st) → grown (nodes (step st e)).
Proof.
  intros He Hg. destruct e; try done; simpl; try done.
  - unfold handleNodePress. destruct (selectedNode st) as [sel|]; [|done].
    destruct (truthy (Some sel)); [|done].
    destruct (String.eqb sel nodeId); [done|]. simpl.
    eapply grown_ids; [apply link_nodes_id|done].
  - unfold sendPacket. by destruct (decide _).
  - by destruct (isSimulating st).
  - apply grown_map; [|done]. intros n. by destruct (is_selected st n).
  - apply grown_map; [|done]. intros n. by destruct (is_selected st n).
  - apply grown_map; [|done]. intros n. by destruct (is_selected st n).
  - apply grown_map; [|done]. intros n. by destruct (is_selected st n).
  - destruct Hg as (base & m & Hb & Hm). exists base, (S m). split; [done|].
    rewrite map_app, Hm. unfold added_ids. rewrite seq_S, map_app, <- app_assoc.
    simpl. do 3 f_equal.
    apply (f_equal length) in Hm. rewrite length_map, length_app in Hm.
    unfold added_ids in Hm. rewrite length_map, length_seq in Hm. by rewrite Hm.
  - exists (map NetworkNode.id (create topology)), 0. split; [|by rewrite app_nil_r].
    unfold preset_ids. destruct topology; set_solver.
  - destruct scenario; simpl; by apply grown_map.
Qed.

Lemma added_id_inj n : Inj (=) (=) (λ i, "N" +:+ pretty (n + i + 1)).
Proof.
  intros i j. simpl. intros [= Heq].
  change (pretty (n + i + 1) = pretty (n + j + 1)) in Heq.
  apply (inj pretty) in Heq. lia.
Qed.

Lemma grown_NoDup ns : grown ns → NoDup (map NetworkNode.id ns).
Proof.
  intros (base & m & Hb & ->). apply NoDup_app. split; [|split].
  - unfold preset_ids in Hb.
    repeat (apply elem_of_cons in Hb as [->|Hb]);
      [apply (bool_decide_unpack _); vm_compute; exact I..|].
    by apply elem_of_nil in Hb.
  - intros x Hx Hadd.
    assert (Hno : starts_with_N x = false).
    { unfold preset_ids in Hb.
      repeat (apply elem_of_cons in Hb as [->|Hb]);
        [repeat (apply elem_of_cons in Hx as [->|Hx]);
         (reflexivity || by apply elem_of_nil in Hx)..|].
      by apply elem_of_nil in Hb. }
    unfold added_ids in Hadd.
    apply list_elem_of_In, in_map_iff in Hadd as (i & <- & _).
    unfold starts_with_N in Hno. simpl in Hno.
    by destruct ("" +:+ pretty (length base + i + 1)).
  - unfold added_ids. change (map ?f ?l) with (f <$> l).
    apply NoDup_fmap_2; [apply added_id_inj|apply NoDup_seq].
Qed.

Lemma reachable_grown st : reachable_state st → grown (nodes st).
Proof.
  intros Hreach.
  apply (reachable_graph_invariant (λ ns _, grown ns)); [| |done].
  - intros st' e. apply grown_step.
  - exists (map NetworkNode.id initialNodes), 0. split; [|by rewrite app_nil_r].
    unfold preset_ids. set_solver.
Qed.

(** No id of a preset and no id of an added node is the name of a member
    of [Object.prototype]. *)
Lemma inherited_not_N x : inherited ("N" +:+ x) = false.
Proof.
  apply bool_decide_eq_false. unfold prototype_keys. intros H.
  repeat (apply elem_of_cons in H as [H|H]; [discriminate H|]).
  by apply elem_of_nil in H.
Qed.

Lemma grown_plain ns :
  grown ns → ∀ n, n ∈ ns → inherited (NetworkNode.id n) = false.
Proof.
  intros (base & m & Hb & Hm) n Hn.
  assert (Hid : NetworkNode.id n ∈ base ++ added_ids (length base) m).
  { rewrite <- Hm. by apply list_elem_of_In, in_map, list_elem_of_In. }
  apply elem_of_app in Hid as [Hid|Hid].
  - unfold preset_ids in Hb.
    repeat (apply elem_of_cons in Hb as [->|Hb]);
      [repeat (apply elem_of_cons in Hid as [->|Hid]);
       (reflexivity || by apply elem_of_nil in Hid)..|].
    by apply elem_of_nil in Hb.
  - unfold added_ids in Hid.
    apply list_elem_of_In, in_map_iff in Hid as (i & <- & _).
    apply inherited_not_N.
Qed.

(** X8.  In every state the screen can reach, no two nodes share an id
    (the presets use R, S and H ids, added nodes get N with the running
    count), so the link list [findPath] reads for an id is the link list of
    the one node that carries it. *)
Theorem X8_node_ids_unique st :
  reachable_state st →
  NoDup (map NetworkNode.id (nodes st)) ∧
  (∀ n, n ∈ nodes st →
        links (nodes st) (NetworkNode.id n) = NetworkNode.connections n).
Proof.
  intros Hreach.
  assert (Hnd : NoDup (map NetworkNode.id (nodes st))).
  { apply grown_NoDup.
    apply (reachable_graph_invariant (λ ns _, grown ns)); [| |done].
    - intros st' e. apply grown_step.
    - exists (map NetworkNode.id initialNodes), 0. split; [|by rewrite app_nil_r].
      unfold preset_ids. set_solver. }
  split; [done|]. intros n. by apply links_unique.
Qed.

Lemma X8_witness :
  NoDup (map NetworkNode.id
           (nodes (run initialState
                     [AddNode; ApplyTopology star; AddNode; AddNode;
                      SaveConfig "today"; ApplyTopology mesh; LoadConfig 0; AddNode]))).
Proof.
  apply (X8_node_ids_unique
           (run initialState
              [AddNode; ApplyTopology star; AddNode; AddNode;
               SaveConfig "today"; ApplyTopology mesh; LoadConfig 0; AddNode])).
  eexists. reflexivity.
Defined.

(** ** More on the statistics *)

Lemma stat_alter_keys f k l : map fst (stat_alter f k l) = map fst l.
Proof.
  induction l as [|[k0 v] l IH]; simpl; [done|].
  destruct (String.eqb k0 k); simpl; [done|by rewrite IH].
Qed.

Lemma stat_own_keys k l : is_Some (stat_own k l) ↔ k ∈ map fst l.
Proof.
  induction l as [|[k0 v] l IH]; simpl.
  - split; [by intros []|by intros ?%elem_of_nil].
  - destruct (String.eqb_spec k0 k) as [->|Hne].
    + split; [intros _; by left|by eexists].
    + rewrite IH, elem_of_cons. naive_solver.
Qed.

Lemma stat_init_keys k l :
  NoDup (map fst l) →
  NoDup (map fst (stat_init k l)) ∧
  (inherited k = false → k ∈ map fst (stat_init k l)) ∧
  (∀ k', k' ∈ map fst l → k' ∈ map fst (stat_init k l)) ∧
  (∀ k', k' ∈ map fst (stat_init k l) → k' ∈ map fst l ∨ inherited k' = false).
Proof.
  intros Hnd. unfold stat_init, stat_get. destruct (stat_own k l) as [v|] eqn:Hk.
  - split; [done|]. split; [intros _; apply stat_own_keys; by rewrite Hk|].
    split; [done|]. intros k' ?. by left.
  - destruct (inherited k) eqn:Hi.
    + split; [done|]. split; [done|]. split; [done|]. intros k' ?. by left.
    + assert (Hnk : k ∉ map fst l).
      { intros Hin%stat_own_keys. rewrite Hk in Hin. by destruct Hin. }
      pose proof (stat_insert_keys k zeroStat l) as Hp.
      split; [rewrite Hp; by apply NoDup_cons|].
      split; [intros _; rewrite Hp; by left|].
      split; [intros k' Hk'; rewrite Hp; by right|].
      intros k' Hk'. rewrite Hp in Hk'.
      apply elem_of_cons in Hk' as [->|?]; [by right|by left].
Qed.

Lemma updateNetworkStats_keys conns pkt prev :
  stat_keys (updateNetworkStats conns pkt prev)
  = map fst (stat_init (Packet.destination pkt)
               (stat_init (Packet.source pkt) (NetworkStats.nodeStats prev))).
Proof.
  unfold stat_keys, updateNetworkStats. cbn [NetworkStats.nodeStats].
  destruct (find _ conns); by rewrite !stat_alter_keys.
Qed.

Lemma step_stat_keys st e :
  NoDup (stat_keys (networkStats st)) →
  (∀ k, k ∈ stat_keys (networkStats st) → inherited k = false) →
  NoDup (stat_keys (networkStats (step st e))) ∧
  (∀ k, k ∈ stat_keys (networkStats (step st e)) → inherited k = false) ∧
  (∀ k, k ∈ stat_keys (networkStats st) → k ∈ stat_keys (networkStats (step st e))) ∧
  (∀ s d data idNow tsNow, e = Send s d data idNow tsNow →
     findPath s d (nodes st) ≠ [] →
     (inherited s = false → s ∈ stat_keys (networkStats (step st e))) ∧
     (inherited d = false → d ∈ stat_keys (networkStats (step st e)))).
Proof.
  intros Hnd Hplain. destruct (is_send e) eqn:He.
  - destruct e; try done. simpl. unfold sendPacket.
    destruct (decide _) as [Hz|Hnz].
    + split; [done|]. split; [done|]. split; [done|].
      intros s' d' ? ? ? Heq Hne. simplify_eq.
      by destruct (findPath s' d' (nodes st)).
    + cbn [networkStats set_networkStats set_packets].
      rewrite updateNetworkStats_keys. cbn [Packet.source Packet.destination newPacket].
      destruct (stat_init_keys source _ Hnd) as (Hnd1 & Hs & Hk1 & Hn1).
      destruct (stat_init_keys destination _ Hnd1) as (Hnd2 & Hd & Hk2 & Hn2).
      split; [done|]. split; [|split].
      * intros k [[Hk|Hk]%Hn1|Hk]%Hn2; [by apply Hplain|done|done].
      * intros k Hk. by apply Hk2, Hk1.
      * intros s' d' ? ? ? Heq _. simplify_eq. split; [|done].
        intros Hs'. by apply Hk2, Hs.
  - rewrite step_stats_frame by done. split; [done|]. split; [done|]. split; [done|].
    intros s' d' ? ? ? ->. done.
Qed.

(** Claim C10.  The statistics change when a packet is sent and at no other
    event.  A successful [sendPacket] adds one to the [packetsReceived]
    counter of the destination while the new packet is still at position 0
    and moving; a tick leaves the statistics as they are; and whatever
    happens afterwards, [successfulPackets] and [droppedPackets] are 0.
    The destination is any id that is not the name of a member of
    [Object.prototype]; the id of a node of the screen never is one. *)
Theorem C10_stats_at_send_only st s d data idNow tsNow es :
  reachable_state st →
  findPath s d (nodes st) ≠ [] →
  inherited d = false →
  (∀ n, n ∈ nodes st → inherited (NetworkNode.id n) = false) ∧
  received (networkStats (step st (Send s d data idNow tsNow))) d
  = (received (networkStats st) d + 1)%float ∧
  (∃ pkt,
     packets (step st (Send s d data idNow tsNow)) !! length (packets st) = Some pkt ∧
     Packet.currentPosition pkt = 0 ∧ Packet.status pkt = Packet.moving) ∧
  (∀ st' e, is_send e = false → networkStats (step st' e) = networkStats st') ∧
  (∀ st', networkStats (step st' Tick) = networkStats st') ∧
  NetworkStats.successfulPackets
    (networkStats (run (step st (Send s d data idNow tsNow)) es)) = 0%float ∧
  NetworkStats.droppedPackets
    (networkStats (run (step st (Send s d data idNow tsNow)) es)) = 0%float.
Proof.
  intros Hreach Hne Hd. split; [|split; [|split; [|split; [|split]]]].
  - by apply grown_plain, reachable_grown.
  - simpl. unfold sendPacket. destruct (decide _) as [Hz|_].
    + by destruct (findPath s d (nodes st)).
    + cbn [networkStats set_networkStats set_packets].
      by apply (updateNetworkStats_received (connections st)
                  (newPacket s d data (findPath s d (nodes st)) (packetType st) idNow tsNow)).
  - eexists. split; [by apply send_packet_at|]. by split.
  - intros st' e. apply step_stats_frame.
  - intros st'. by apply step_stats_frame.
  - apply reachable_counters.
    apply (reachable_run st (Send s d data idNow tsNow :: es) Hreach).
Qed.

(** Two packets to H4: its counter is at 2 although neither has arrived. *)
Lemma C10_witness :
  received (networkStats (run initialState
              [Send "H1" "H4" "ping" 3%N 3%N; Send "H2" "H4" "ping" 4%N 4%N])) "H4"
  = 2%float.
Proof.
  assert (Hreach : reachable_state (run initialState [Send "H1" "H4" "ping" 3%N 3%N]))
    by (eexists; reflexivity).
  assert (Hne : findPath "H2" "H4"
                  (nodes (run initialState [Send "H1" "H4" "ping" 3%N 3%N])) ≠ [])
    by (vm_compute; discriminate).
  destruct (C10_stats_at_send_only _ "H2" "H4" "ping" 4%N 4%N [] Hreach Hne eq_refl)
    as (_ & Hrecv & _).
  change (run initialState
            [Send "H1" "H4" "ping" 3%N 3%N; Send "H2" "H4" "ping" 4%N 4%N])
    with (step (run initialState [Send "H1" "H4" "ping" 3%N 3%N])
            (Send "H2" "H4" "ping" 4%N 4%N)).
  rewrite Hrecv. vm_compute. reflexivity.
Defined.

(** X9.  In every state the screen can reach, [nodeStats] has one record
    per id, no record under the name of a member of [Object.prototype], and
    a record for the source and for the destination of every packet in the
    list, unless that id is such a name (then the lookup finds the inherited
    member and no record is made). *)
Theorem X9_stats_cover_packets st :
  reachable_state st →
  NoDup (stat_keys (networkStats st)) ∧
  (∀ k, k ∈ stat_keys (networkStats st) → inherited k = false) ∧
  (∀ pkt, pkt ∈ packets st →
     (inherited (Packet.source pkt) = false →
      Packet.source pkt ∈ stat_keys (networkStats st)) ∧
     (inherited (Packet.destination pkt) = false →
      Packet.destination pkt ∈ stat_keys (networkStats st))).
Proof.
  intros [es ->]. induction es as [|e es (IHnd & IHplain & IHp)] using rev_ind.
  - split; [constructor|]. split; by intros ? ?%elem_of_nil.
  - rewrite run_app. simpl. set (st := run initialState es) in *.
    destruct (step_stat_keys st e IHnd IHplain) as (Hnd & Hplain & Hkeep & Hsend).
    split; [done|]. split; [done|]. intros pkt Hpkt.
    destruct (step_packets st e) as [Heq|[[_ Heq]|(s & d & data & a & b & -> & Hne & Heq)]];
      rewrite Heq in Hpkt.
    + destruct (IHp pkt Hpkt) as [Hs Hd]. split; intros ?; apply Hkeep; auto.
    + unfold tick in Hpkt. apply list_elem_of_In, in_map_iff in Hpkt as (pkt0 & <- & Hin).
      apply list_elem_of_In, IHp in Hin as [Hs Hd].
      destruct (tick_packet_route pkt0) as (_ & -> & -> & _).
      split; intros ?; apply Hkeep; auto.
    + apply elem_of_app in Hpkt as [Hpkt|Hpkt].
      * destruct (IHp pkt Hpkt) as [Hs Hd]. split; intros ?; apply Hkeep; auto.
      * apply list_elem_of_singleton in Hpkt as ->.
        by apply (Hsend s d data a b).
Qed.

Lemma X9_witness :
  NoDup (stat_keys (networkStats
           (run initialState
              [Send "H1" "H4" "ping" 3%N 3%N; Send "toString" "toString" "ping" 4%N 4%N;
               Send "7" "7" "ping" 5%N 5%N; Send "H2" "H1" "ping" 6%N 6%N]))).
Proof.
  apply (X9_stats_cover_packets
           (run initialState
              [Send "H1" "H4" "ping" 3%N 3%N; Send "toString" "toString" "ping" 4%N 4%N;
               Send "7" "7" "ping" 5%N 5%N; Send "H2" "H1" "ping" 6%N 6%N])).
  eexists. reflexivity.
Defined.

(** X10.  What a send does to the other counters.  It adds one to
    [totalPackets]; it adds one to the [packetsSent] of the source, unless
    the source is the name of a member of [Object.prototype]; it leaves the
    record of every id other than the source and the destination as it was;
    and it never makes a record under such a name. *)
Theorem X10_send_accounting conns pkt prev :
  (inherited (Packet.source pkt) = false →
   sent (updateNetworkStats conns pkt prev) (Packet.source pkt)
   = (sent prev (Packet.source pkt) + 1)%float) ∧
  NetworkStats.totalPackets (updateNetworkStats conns pkt prev)
  = (NetworkStats.totalPackets prev + 1)%float ∧
  (∀ k, k ≠ Packet.source pkt → k ≠ Packet.destination pkt →
     stat_own k (NetworkStats.nodeStats (updateNetworkStats conns pkt prev))
     = stat_own k (NetworkStats.nodeStats prev)) ∧
  (∀ k, inherited k = true → stat_own k (NetworkStats.nodeStats prev) = None →
     stat_own k (NetworkStats.nodeStats (updateNetworkStats conns pkt prev)) = None).
Proof.
  unfold sent, updateNetworkStats.
  set (s := Packet.source pkt). set (d := Packet.destination pkt).
  set (l0 := NetworkStats.nodeStats prev).
  cbn [NetworkStats.nodeStats NetworkStats.totalPackets].
  split; [|split; [done|split]].
  - intros Hs.
    assert (H2 : stat_own s (stat_init d (stat_init s l0))
                 = Some (default zeroStat (stat_own s l0))).
    { destruct (String.eqb_spec d s) as [->|Hne].
      - rewrite stat_init_same_twice by done. by apply stat_own_init_same.
      - rewrite stat_own_init_other by congruence. by apply stat_own_init_same. }
    assert (H4 : ∃ v', stat_own s (stat_alter received_incr d
                         (stat_alter sent_incr s (stat_init d (stat_init s l0))))
                       = Some v' ∧
                       NodeStat.packetsSent v'
                       = (NodeStat.packetsSent (default zeroStat (stat_own s l0)) + 1)%float).
    { rewrite stat_own_alter, stat_own_alter, String.eqb_refl, H2. simpl.
      destruct (String.eqb d s); eexists; (split; [reflexivity|]); done. }
    destruct H4 as (v' & Hv' & Hsent').
    destruct (find _ conns) as [c|].
    + rewrite stat_own_alter, String.eqb_refl, Hv'. simpl. exact Hsent'.
    + rewrite Hv'. simpl. exact Hsent'.
  - intros k Hks Hkd.
    assert (Hsk : String.eqb s k = false) by (by apply String.eqb_neq).
    assert (Hdk : String.eqb d k = false) by (by apply String.eqb_neq).
    destruct (find _ conns) as [c|]; rewrite !stat_own_alter, ?Hsk, ?Hdk;
      by rewrite !stat_own_init_other.
  - intros k Hk Hnone.
    assert (Hinit : stat_own k (stat_init d (stat_init s l0)) = None).
    { rewrite !stat_own_init_inherited by done. exact Hnone. }
    destruct (find _ conns) as [c|]; rewrite !stat_own_alter, Hinit;
      by repeat destruct (String.eqb _ k).
Qed.

(** ** Saved configurations *)

Lemma step_saved_kept st e i c :
  deletes e = false → savedConfigs st !! i = Some c →
  savedConfigs (step st e) !! i = Some c.
Proof.
  intros He Hi. destruct (touches_configs e) eqn:Ht.
  - destruct e; try done; simpl.
    + by apply lookup_app_l_Some.
    + by destruct (savedConfigs st !! index).
  - by rewrite step_savedConfigs.
Qed.

Lemma run_saved_kept es : ∀ st i c,
  Forall (λ e, deletes e = false) es → savedConfigs st !! i = Some c →
  savedConfigs (run st es) !! i = Some c.
Proof.
  induction es as [|e es IH]; intros st i c Hall Hi; [done|].
  apply Forall_cons in Hall as [He Hall]. simpl.
  apply IH; [done|]. by apply step_saved_kept.
Qed.

(** X11.  A saved configuration is a snapshot.  Whatever happens after the
    save, short of deleting configurations, loading that entry brings back
    the nodes, the connections and the packet filters exactly as they were
    when it was saved; packets and statistics are not part of it. *)
Theorem X11_save_load st date es :
  Forall (λ e, deletes e = false) es →
  nodes (run (step st (SaveConfig date)) (es ++ [LoadConfig (length (savedConfigs st))]))
  = nodes st ∧
  connections (run (step st (SaveConfig date))
                 (es ++ [LoadConfig (length (savedConfigs st))]))
  = connections st ∧
  packetFilters (run (step st (SaveConfig date))
                   (es ++ [LoadConfig (length (savedConfigs st))]))
  = packetFilters st ∧
  packets (run (step st (SaveConfig date))
             (es ++ [LoadConfig (length (savedConfigs st))]))
  = packets (run (step st (SaveConfig date)) es).
Proof.
  intros Hall. rewrite run_app. simpl.
  set (cfg := NetworkConfig.mk (nodes st) (connections st) (packetFilters st)
                (configName st) (configDescription st) date).
  assert (Hsaved : savedConfigs (run (saveCurrentConfig date st) es)
                     !! length (savedConfigs st) = Some cfg).
  { apply run_saved_kept; [done|]. simpl. by rewrite lookup_app_r, Nat.sub_diag. }
  by rewrite Hsaved.
Qed.

Lemma X11_witness :
  nodes (run (step initialState (SaveConfig "today"))
           ([ApplyTopology mesh; AddNode; PressNode "R1"; PressNode "H5"]
            ++ [LoadConfig (length (savedConfigs initialState))]))
  = nodes initialState.
Proof.
  apply (X11_save_load initialState "today"
           [ApplyTopology mesh; AddNode; PressNode "R1"; PressNode "H5"]).
  repeat constructor.
Defined.

(** X12.  [deleteConfig] goes by name, not by entry: "Delete" on one saved
    configuration removes every saved configuration with the same name and
    keeps the others. *)
Theorem X12_delete_by_name st i c :
  savedConfigs st !! i = Some c →
  (∀ c', c' ∈ savedConfigs (step st (DeleteConfig i)) ↔
         c' ∈ savedConfigs st ∧ NetworkConfig.name c' ≠ NetworkConfig.name c) ∧
  length (savedConfigs (step st (DeleteConfig i))) < length (savedConfigs st) ∧
  nodes (step st (DeleteConfig i)) = nodes st ∧
  connections (step st (DeleteConfig i)) = connections st.
Proof.
  intros Hi. simpl. rewrite Hi. simpl. split; [|split; [|done]].
  - intros c'. rewrite list_elem_of_filter. tauto.
  - apply (length_filter_lt _ _ c); [by eapply list_elem_of_lookup_2|]. tauto.
Qed.

(** Two saves under one name: deleting the first entry removes entries. *)
Lemma X12_witness :
  length (savedConfigs
            (step (run initialState
                     [EditConfigName "lab"; SaveConfig "monday"; AddNode;
                      EditConfigName "lab"; SaveConfig "tuesday"])
               (DeleteConfig 0)))
  < length (savedConfigs
              (run initialState
                 [EditConfigName "lab"; SaveConfig "monday"; AddNode;
                  EditConfigName "lab"; SaveConfig "tuesday"])).
Proof.
  assert (Hc : ∃ c, savedConfigs
                      (run initialState
                         [EditConfigName "lab"; SaveConfig "monday"; AddNode;
                          EditConfigName "lab"; SaveConfig "tuesday"]) !! 0 = Some c)
    by (eexists; vm_compute; reflexivity).
  destruct Hc as [c Hc].
  apply (X12_delete_by_name _ 0 c Hc).
Defined.

(** ** More on the scenarios *)

Lemma reachable_ids_NoDup st :
  reachable_state st → NoDup (map NetworkNode.id (nodes st)).
Proof.
  intros Hreach. apply grown_NoDup.
  apply (reachable_graph_invariant (λ ns _, grown ns)); [| |done].
  - intros st' e. apply grown_step.
  - exists (map NetworkNode.id initialNodes), 0. split; [|by rewrite app_nil_r].
    unfold preset_ids. set_solver.
Qed.

Lemma same_id_same_node ns n m :
  NoDup (map NetworkNode.id ns) → n ∈ ns → m ∈ ns →
  NetworkNode.id n = NetworkNode.id m → n = m.
Proof.
  intros Hnd [i Hi]%list_elem_of_lookup [j Hj]%list_elem_of_lookup Heq.
  assert (i = j) as ->; [|congruence].
  apply (NoDup_lookup _ i j (NetworkNode.id n) Hnd);
    change (map NetworkNode.id ns) with (NetworkNode.id <$> ns);
    rewrite list_lookup_fmap; [by rewrite Hi|by rewrite Hj, Heq].
Qed.

Lemma secure_filters_other ns (m : gmap string PacketFilter.t) k :
  k ∉ map NetworkNode.id ns →
  fold_left (λ filters node, <[NetworkNode.id node := secure_filter node]> filters) ns m
    !! k = m !! k.
Proof.
  revert m; induction ns as [|n ns IH]; intros m Hk; [done|].
  simpl in *. rewrite IH by set_solver. apply lookup_insert_ne. set_solver.
Qed.

Lemma secure_filters_lookup ns (m : gmap string PacketFilter.t) n :
  NoDup (map NetworkNode.id ns) → n ∈ ns →
  fold_left (λ filters node, <[NetworkNode.id node := secure_filter node]> filters) ns m
    !! NetworkNode.id n = Some (secure_filter n).
Proof.
  revert m; induction ns as [|n0 ns IH]; intros m Hnd Hn; [by apply elem_of_nil in Hn|].
  simpl in *. apply NoDup_cons in Hnd as [Hn0 Hnd].
  apply elem_of_cons in Hn as [->|Hn]; [|by apply IH].
  rewrite secure_filters_other by done. apply lookup_insert_eq.
Qed.

(** X13.  After the security scenario, in any state the screen can reach,
    the packet filters are exactly one per node.  The filter of a router
    allows TCP, UDP and ICMP with priority 3, that of a switch TCP and UDP
    with priority 2, that of a host TCP with priority 1; its bandwidth cap
    is 0.7 times the bandwidth the node had before the scenario (NaN where
    that was undefined).  Whatever filters were set before, for ids that are
    not nodes, are gone. *)
Theorem X13_security_filters st shuffle :
  reachable_state st →
  (∀ n, n ∈ nodes st →
     ∃ f, packetFilters (step st (ApplyScenario security shuffle)) !! NetworkNode.id n
          = Some f ∧
       PacketFilter.allowedTypes f
       = Some match NetworkNode.type n with
              | NetworkNode.router => [Packet.TCP; Packet.UDP; Packet.ICMP]
              | NetworkNode.switch => [Packet.TCP; Packet.UDP]
              | NetworkNode.host => [Packet.TCP]
              end ∧
       PacketFilter.priority f
       = Some match NetworkNode.type n with
              | NetworkNode.router => 3%float
              | NetworkNode.switch => 2%float
              | NetworkNode.host => 1%float
              end ∧
       (∀ b, NetworkNode.bandwidth n = Some b →
             PacketFilter.maxBandwidth f = Some (b * 0.7)%float) ∧
       (NetworkNode.bandwidth n = None → PacketFilter.maxBandwidth f = Some nan)) ∧
  (∀ k, has_node (nodes st) k = false →
     packetFilters (step st (ApplyScenario security shuffle)) !! k = None).
Proof.
  intros Hnd%reachable_ids_NoDup. simpl. split.
  - intros n Hn. exists (secure_filter n).
    split; [by apply secure_filters_lookup|]. simpl.
    split; [done|]. split; [done|]. split; [by intros b ->|by intros ->].
  - intros k Hk. rewrite secure_filters_other; [done|].
    intros Hin. apply list_elem_of_In, in_map_iff in Hin as (n & <- & Hn).
    assert (has_node (nodes st) (NetworkNode.id n) = true); [|congruence].
    apply existsb_exists. exists n. by rewrite String.eqb_refl.
Qed.

(** On the initial topology, with a filter set for an id that is no node:
    the switch S1 (bandwidth 100) gets TCP and UDP, priority 2 and a cap of
    70; the filter of the other id is gone. *)
Lemma X13_witness :
  (∃ f, packetFilters
          (step (run initialState [EditPacketFilter "gone" (PacketFilter.mk None None None)])
             (ApplyScenario security (λ l, l))) !! "S1" = Some f ∧
        PacketFilter.allowedTypes f = Some [Packet.TCP; Packet.UDP] ∧
        PacketFilter.priority f = Some 2%float ∧
        PacketFilter.maxBandwidth f = Some 70%float) ∧
  packetFilters (step (run initialState [EditPacketFilter "gone" (PacketFilter.mk None None None)])
                   (ApplyScenario security (λ l, l))) !! "gone" = None.
Proof.
  destruct (X13_security_filters
              (run initialState [EditPacketFilter "gone" (PacketFilter.mk None None None)])
              (λ l, l)) as [Hnodes Hother]; [by eexists|].
  split; [|by apply Hother].
  destruct (Hnodes (NetworkNode.mk "S1" NetworkNode.switch ["R1"; "H1"; "H2"]
                      NetworkNode.active (Some "192.168.1.3") (Some 100%float)
                      (Some 1%float) (Some 0.05%float)))
    as (f & Hf & Ht & Hp & Hb & _).
  { apply (list_elem_of_lookup_2 _ 2). reflexivity. }
  exists f. split; [exact Hf|]. split; [exact Ht|]. split; [exact Hp|].
  exact (Hb 100%float eq_refl).
Defined.

Lemma sublist_map {A B} (f : A → B) l1 l2 :
  l1 `sublist_of` l2 → map f l1 `sublist_of` map f l2.
Proof. induction 1; simpl; by constructor. Qed.

Lemma failed_status_node shuffle ns n :
  NetworkNode.status
    (with_status
       (if existsb (λ f, String.eqb (NetworkNode.id f) (NetworkNode.id n))
             (failedNodes shuffle ns)
        then NetworkNode.inactive else NetworkNode.active) n) = NetworkNode.inactive
  ↔ ∃ f, f ∈ failedNodes shuffle ns ∧ NetworkNode.id f = NetworkNode.id n.
Proof.
  simpl. destruct (existsb _ _) eqn:He.
  - apply existsb_exists in He as (f & Hf & Heq).
    split; [intros _|done]. exists f. split; [by apply list_elem_of_In|].
    by apply String.eqb_eq.
  - split; [done|]. intros (f & Hf & Heq).
    assert (existsb (λ f0, String.eqb (NetworkNode.id f0) (NetworkNode.id n))
              (failedNodes shuffle ns) = true); [|congruence].
    apply existsb_exists. exists f. split; [by apply list_elem_of_In|].
    by apply String.eqb_eq.
Qed.

(** X14.  The failure scenario, in any state the screen can reach and for
    any random order that only rearranges the critical nodes: no host is
    deactivated; at most two nodes are; and a connection is deactivated
    exactly when one of its two ends is a deactivated node. *)
Theorem X14_failure_scope st shuffle :
  reachable_state st →
  (∀ l x, x ∈ shuffle l → x ∈ l) →
  (∀ n, n ∈ nodes (step st (ApplyScenario failure shuffle)) →
     NetworkNode.type n = NetworkNode.host →
     NetworkNode.status n = NetworkNode.active) ∧
  length (filter (λ n, NetworkNode.status n = NetworkNode.inactive)
            (nodes (step st (ApplyScenario failure shuffle)))) ≤ 2 ∧
  (∀ c, c ∈ connections (step st (ApplyScenario failure shuffle)) →
     Connection.status c = Connection.inactive ↔
     ∃ n, n ∈ nodes (step st (ApplyScenario failure shuffle)) ∧
          NetworkNode.status n = NetworkNode.inactive ∧
          (NetworkNode.id n = Connection.from c ∨ NetworkNode.id n = Connection.to c)).
Proof.
  intros Hnd%reachable_ids_NoDup Hsub. simpl.
  fold (failedNodes shuffle (nodes st)).
  set (g := λ node, with_status
                 (if existsb (λ n, String.eqb (NetworkNode.id n) (NetworkNode.id node))
                       (failedNodes shuffle (nodes st))
                  then NetworkNode.inactive else NetworkNode.active) node).
  assert (Hfailed : ∀ f, f ∈ failedNodes shuffle (nodes st) →
            f ∈ nodes st ∧ is_critical f = true).
  { intros f Hf. unfold failedNodes in Hf.
    apply subseteq_take, Hsub, list_elem_of_filter in Hf. tauto. }
  assert (Hres : ∀ n', n' ∈ map g (nodes st) ↔ ∃ n, n ∈ nodes st ∧ n' = g n).
  { intros n'. rewrite list_elem_of_In, in_map_iff.
    split; intros (n & H1 & H2); exists n; [by rewrite <- list_elem_of_In in H2
                                           |by rewrite <- list_elem_of_In]. }
  split; [|split].
  - intros n' (n & Hn & ->)%Hres Htype.
    destruct (NetworkNode.status (g n)) eqn:Hs; [done| |].
    2: { simpl in Hs. by destruct (existsb _ (failedNodes shuffle (nodes st))). }
    apply failed_status_node in Hs as (f & Hf & Heq).
    destruct (Hfailed f Hf) as [Hfin Hcrit].
    assert (f = n) as -> by (by eapply same_id_same_node).
    unfold is_critical in Hcrit. simpl in Htype. by rewrite Htype in Hcrit.
  - assert (Hids : map NetworkNode.id
                     (filter (λ n, NetworkNode.status n = NetworkNode.inactive)
                        (map g (nodes st)))
                   ⊆+ map NetworkNode.id (failedNodes shuffle (nodes st))).
    { apply NoDup_submseteq.
      - eapply sublist_NoDup; [|apply sublist_map, sublist_filter; apply _].
        rewrite map_map. by erewrite map_ext; [exact Hnd|].
      - intros k Hk. apply list_elem_of_In, in_map_iff in Hk as (n' & <- & Hin).
        apply list_elem_of_In, list_elem_of_filter in Hin as [Hs Hin].
        apply Hres in Hin as (n & Hn & ->).
        apply failed_status_node in Hs as (f & Hf & Heq).
        simpl. rewrite <- Heq. by apply list_elem_of_In, in_map, list_elem_of_In. }
    apply submseteq_length in Hids. rewrite !length_map in Hids.
    unfold failedNodes in Hids. rewrite length_take in Hids. lia.
  - intros c' Hc'. apply list_elem_of_In, in_map_iff in Hc' as (c & <- & _). simpl.
    destruct (existsb _ _) eqn:He.
    + split; [intros _|done].
      apply existsb_exists in He as (f & Hf & Heq). apply list_elem_of_In in Hf.
      destruct (Hfailed f Hf) as [Hfin _].
      exists (g f). split; [apply Hres; eauto|]. split.
      * apply failed_status_node. eauto.
      * simpl. apply orb_true_iff in Heq as [?%String.eqb_eq|?%String.eqb_eq]; auto.
    + split; [done|]. intros (n' & (n & Hn & ->)%Hres & Hs & Hends).
      apply failed_status_node in Hs as (f & Hf & Heq).
      assert (existsb
                (λ n0, String.eqb (NetworkNode.id n0) (Connection.from c)
                       || String.eqb (NetworkNode.id n0) (Connection.to c))
                (failedNodes shuffle (nodes st)) = true); [|congruence].
      apply existsb_exists. exists f. split; [by apply list_elem_of_In|].
      simpl in Hends. apply orb_true_iff.
      destruct Hends as [<-|<-]; [left|right]; by apply String.eqb_eq.
Qed.

Lemma X14_witness :
  length (filter (λ n, NetworkNode.status n = NetworkNode.inactive)
            (nodes (step initialState (ApplyScenario failure reverse)))) ≤ 2.
Proof.
  apply (X14_failure_scope initialState reverse).
  - by exists [].
  - intros l x. by rewrite elem_of_reverse.
Defined.

(** ** Packet filter buttons *)

(** X15.  A type button of the packet filter modal toggles that type for
    that node: the type is allowed afterwards exactly when it was not
    before, every other type keeps its place in or out of the list, the
    bandwidth cap and the priority of the node's filter are kept, and the
    filters of the other nodes are untouched. *)
Theorem X15_toggle_allowed_type st nodeId type :
  let old := default [] (packetFilters st !! nodeId ≫= PacketFilter.allowedTypes) in
  ∃ new f,
    packetFilters (toggleAllowedType nodeId type st) !! nodeId = Some f ∧
    PacketFilter.allowedTypes f = Some new ∧
    (type ∈ new ↔ type ∉ old) ∧
    (∀ t, t ≠ type → t ∈ new ↔ t ∈ old) ∧
    (NoDup old → NoDup new) ∧
    PacketFilter.maxBandwidth f = packetFilters st !! nodeId ≫= PacketFilter.maxBandwidth ∧
    PacketFilter.priority f = packetFilters st !! nodeId ≫= PacketFilter.priority ∧
    (∀ k, k ≠ nodeId →
       packetFilters (toggleAllowedType nodeId type st) !! k = packetFilters st !! k) ∧
    toggleAllowedType nodeId type st
    = step st (EditPacketFilter nodeId (PacketFilter.mk (Some new) None None)).
Proof.
  intros old. unfold toggleAllowedType. fold old.
  set (new := if decide (type ∈ old) then filter (λ t, t ≠ type) old else old ++ [type]).
  exists new, (merge_filter (PacketFilter.mk (Some new) None None) (packetFilters st !! nodeId)).
  simpl. split; [apply lookup_insert_eq|]. split; [done|].
  split; [|split; [|split; [|split; [done|split; [done|split; [|done]]]]]].
  - unfold new. destruct (decide (type ∈ old)) as [Hin|Hnin].
    + rewrite list_elem_of_filter. tauto.
    + rewrite elem_of_app, list_elem_of_singleton. tauto.
  - intros t Ht. unfold new. destruct (decide (type ∈ old)).
    + rewrite list_elem_of_filter. tauto.
    + rewrite elem_of_app, list_elem_of_singleton. tauto.
  - intros Hnd. unfold new. destruct (decide (type ∈ old)).
    + by apply NoDup_filter.
    + apply NoDup_app. split; [done|]. split; [|apply NoDup_singleton].
      by intros t Ht ->%list_elem_of_singleton.
  - intros k Hk. by apply lookup_insert_ne.
Qed.

(** ** The tutorial screen *)

(** X16.  The step counter of a tutorial with at least one step never
    leaves the range of its steps.  "Next" leaves the screen exactly on the
    last step and otherwise moves one step forward, from where "Previous"
    leads back; "Previous" on the first step does nothing. *)
Theorem X16_tutorial_steps steps t :
  Tutorial.currentStep t < steps →
  Tutorial.currentStep (handleNext steps t).1 < steps ∧
  Tutorial.currentStep (handlePrevious t) < steps ∧
  ((handleNext steps t).2 = true ↔ Tutorial.currentStep t = steps - 1) ∧
  ((handleNext steps t).2 = false →
   Tutorial.currentStep (handleNext steps t).1 = Tutorial.currentStep t + 1 ∧
   Tutorial.currentStep (handlePrevious (handleNext steps t).1)
   = Tutorial.currentStep t) ∧
  (Tutorial.currentStep t = 0 → handlePrevious t = t).
Proof.
  intros Hlt. unfold handleNext, handlePrevious.
  destruct (decide (_ < _)%Z) as [Hn|Hn]; simpl;
    destruct (decide (0 < Tutorial.currentStep t)) as [Hp|Hp]; simpl;
    repeat split; intros; try done; try lia;
    repeat (destruct (decide _); simpl); try done; lia.
Qed.

Lemma X16_witness :
  (handleNext 3 (Tutorial.mk 2 true "x")).2 = true ∧
  (handleNext 3 (Tutorial.mk 1 true "x")).1 = Tutorial.mk 2 false "".
Proof.
  destruct (X16_tutorial_steps 3 (Tutorial.mk 2 true "x")) as (_ & _ & Hback & _);
    [simpl; lia|].
  split; [by apply Hback|reflexivity].
Defined.

(** ** The quiz screen *)

Lemma quiz_step_ok questions q e :
  quiz_ok questions q → quiz_ok questions (quiz_step questions q e).
Proof.
  intros Hok.
  destruct e; simpl;
    (destruct (Quiz.quizCompleted q) eqn:Hc; [try exact Hok|try exact Hok]);
    try (destruct (Quiz.showExplanation q) eqn:He; [try exact Hok|try exact Hok]);
    destruct Hok as (Hcur & Hscore & Hdone); unfold quiz_ok;
    rewrite ?Hc, ?He in *.
  - simpl. rewrite Hc. split; [done|]. split; [destruct (bool_decide _); lia|done].
  - unfold handleNextQuestion. destruct (decide _) as [Hlt|Hge]; simpl;
      rewrite ?Hc, ?He.
    + split; [lia|]. split; [lia|done].
    + split; [done|]. split; [lia|]. intros _. split; [lia|done].
  - simpl. split; [lia|]. split; [lia|done].
  - simpl. split; [lia|]. split; [lia|done].
Qed.

(** X17.  On a quiz with at least one question, whatever is pressed: the
    question index stays within the quiz, the score never exceeds the number
    of questions answered so far, hence never the number of questions, and
    the quiz is completed only on its last question. *)
Theorem X17_quiz_score_bound questions es :
  questions ≠ [] →
  Quiz.currentQuestion (quiz_run questions es) < length questions ∧
  Quiz.score (quiz_run questions es)
  ≤ Quiz.currentQuestion (quiz_run questions es)
    + (if Quiz.showExplanation (quiz_run questions es) then 1 else 0) ∧
  Quiz.score (quiz_run questions es) ≤ length questions ∧
  (Quiz.quizCompleted (quiz_run questions es) = true →
   Quiz.currentQuestion (quiz_run questions es) = length questions - 1).
Proof.
  intros Hne.
  assert (Hok : quiz_ok questions (quiz_run questions es)).
  { unfold quiz_run. induction es as [|e es IH] using rev_ind.
    - repeat split; simpl; [destruct questions; simpl; [done|lia]|lia|done|done].
    - rewrite fold_left_app. simpl. by apply quiz_step_ok. }
  destruct Hok as (Hcur & Hscore & Hdone).
  split; [done|]. split; [done|]. split; [|by intros [? _]%Hdone].
  destruct (Quiz.showExplanation _); lia.
Qed.

Lemma X17_witness :
  Quiz.score
    (quiz_run [Quiz.mkQuestion ["a"; "b"] "a"; Quiz.mkQuestion ["c"; "d"] "d"]
       [Quiz.PressOption "a"; Quiz.PressOption "a"; Quiz.PressNext;
        Quiz.PressOption "d"; Quiz.PressOption "d"; Quiz.PressNext;
        Quiz.PressOption "d"]) ≤ 2.
Proof.
  apply (X17_quiz_score_bound
           [Quiz.mkQuestion ["a"; "b"] "a"; Quiz.mkQuestion ["c"; "d"] "d"]).
  discriminate.
Defined.

Lemma perfect_run_from questions : ∀ rest q,
  rest ≠ [] →
  drop (Quiz.currentQuestion q) questions = rest →
  Quiz.showExplanation q = false → Quiz.quizCompleted q = false →
  Quiz.quizCompleted (fold_left (quiz_step questions) (perfect_run rest) q) = true ∧
  Quiz.score (fold_left (quiz_step questions) (perfect_run rest) q)
  = Quiz.score q + length rest.
Proof.
  induction rest as [|qn rest IH]; intros q Hne Hdrop He Hc; [done|].
  assert (Hqn : questions !! Quiz.currentQuestion q = Some qn).
  { rewrite <- (Nat.add_0_r (Quiz.currentQuestion q)), <- lookup_drop. by rewrite Hdrop. }
  assert (Hlen : length questions = Quiz.currentQuestion q + S (length rest)).
  { apply (f_equal length) in Hdrop. rewrite length_drop in Hdrop. simpl in Hdrop.
    apply lookup_lt_Some in Hqn. lia. }
  set (q1 := handleAnswer questions (Quiz.correctAnswer qn) q).
  assert (Hq1 : Quiz.score q1 = Quiz.score q + 1).
  { unfold q1, handleAnswer. simpl. rewrite Hqn. simpl.
    by rewrite bool_decide_eq_true_2. }
  change (perfect_run (qn :: rest))
    with (Quiz.PressOption (Quiz.correctAnswer qn) :: Quiz.PressNext :: perfect_run rest).
  cbn [fold_left].
  assert (Hs1 : quiz_step questions q (Quiz.PressOption (Quiz.correctAnswer qn)) = q1)
    by (simpl; by rewrite Hc, He).
  assert (Hs2 : quiz_step questions q1 Quiz.PressNext = handleNextQuestion questions q1)
    by (simpl; by rewrite Hc).
  rewrite Hs1, Hs2. unfold handleNextQuestion.
  change (Quiz.currentQuestion q1) with (Quiz.currentQuestion q).
  destruct rest as [|qn' rest].
  - destruct (decide _) as [Hlt|_]; [simpl in Hlen; lia|]. simpl.
    split; [done|exact Hq1].
  - destruct (decide _) as [_|Hge]; [|simpl in Hlen; lia].
    destruct (IH (Quiz.mk (Quiz.currentQuestion q + 1) None false (Quiz.score q1)
                    (Quiz.quizCompleted q1))) as [Hdone Hscore]; [done| |done|done|].
    + simpl.
      replace (drop (Quiz.currentQuestion q + 1) questions)
        with (drop 1 (drop (Quiz.currentQuestion q) questions))
        by (rewrite drop_drop; f_equal; lia).
      by rewrite Hdrop.
    + split; [done|]. rewrite Hscore. cbn [Quiz.score length]. rewrite Hq1. lia.
Qed.

(** X18.  Answering every question of a quiz with its correct answer, each
    followed by "Next", completes the quiz with the full score. *)
Theorem X18_quiz_perfect_run questions :
  questions ≠ [] →
  Quiz.quizCompleted (quiz_run questions (perfect_run questions)) = true ∧
  Quiz.score (quiz_run questions (perfect_run questions)) = length questions.
Proof.
  intros Hne. by apply (perfect_run_from questions questions quizStart).
Qed.

Lemma X18_witness :
  Quiz.score
    (quiz_run [Quiz.mkQuestion ["a"; "b"] "a"; Quiz.mkQuestion ["c"; "d"] "d"]
       (perfect_run [Quiz.mkQuestion ["a"; "b"] "a"; Quiz.mkQuestion ["c"; "d"] "d"]))
  = length [Quiz.mkQuestion ["a"; "b"] "a"; Quiz.mkQuestion ["c"; "d"] "d"].
Proof.
  apply (X18_quiz_perfect_run
           [Quiz.mkQuestion ["a"; "b"] "a"; Quiz.mkQuestion ["c"; "d"] "d"]).
  discriminate.
Defined.

(** ** A node that was just added *)

Lemma findPath_no_links nodes s d :
  links nodes s = [] → s ≠ d → findPath s d nodes = [].
Proof.
  intros Hl Hne.
  assert (Hsome : findPath_loop (findPath_fuel nodes) d nodes [[s]] ∅ = Some []).
  { unfold findPath_fuel. rewrite findPath_loop_unfold. simpl.
    destruct (String.eqb_spec s d) as [->|_]; [done|]. by rewrite Hl. }
  rewrite findPath_loop_total in Hsome. by injection Hsome.
Qed.

(** X19.  The "Add Node" button makes a node whose id no node of the screen
    carries yet and whose link list is empty.  Until it is linked by two
    presses, nothing can be sent from it: [findPath] from the new node to
    any other id is empty and [sendPacket] leaves the state as it is. *)
Theorem X19_new_node_isolated st d data idNow tsNow :
  reachable_state st →
  d ≠ "N" +:+ pretty (length (nodes st) + 1) →
  has_node (nodes st) ("N" +:+ pretty (length (nodes st) + 1)) = false ∧
  has_node (nodes (step st AddNode)) ("N" +:+ pretty (length (nodes st) + 1)) = true ∧
  findPath ("N" +:+ pretty (length (nodes st) + 1)) d (nodes (step st AddNode)) = [] ∧
  sendPacket ("N" +:+ pretty (length (nodes st) + 1)) d data idNow tsNow (step st AddNode)
  = step st AddNode.
Proof.
  intros Hreach Hd.
  set (new := "N" +:+ pretty (length (nodes st) + 1)) in *.
  pose proof (reachable_ids_NoDup (run st [AddNode]) (reachable_run st [AddNode] Hreach))
    as Hnd.
  change (run st [AddNode]) with (step st AddNode) in Hnd.
  assert (Hnodes : ∃ n, nodes (step st AddNode) = nodes st ++ [n] ∧
                        NetworkNode.id n = new ∧ NetworkNode.connections n = [])
    by (eexists; split; [reflexivity|done]).
  destruct Hnodes as (n & Hn & Hid & Hconn). rewrite Hn in *.
  rewrite map_app in Hnd. simpl in Hnd. rewrite Hid in Hnd.
  apply NoDup_app in Hnd as (_ & Hfresh & _).
  assert (Hno : has_node (nodes st) new = false).
  { destruct (has_node (nodes st) new) eqn:Hh; [|done].
    apply has_node_elem in Hh. exfalso. apply (Hfresh new Hh). by left. }
  assert (Hnil : findPath new d (nodes st ++ [n]) = []).
  { apply findPath_no_links; [|done].
    rewrite links_snoc_unlinked by done.
    destruct (links (nodes st) new) as [|v l] eqn:Hl; [done|].
    assert (has_node (nodes st) new = true); [|congruence].
    apply (links_has_node (nodes st) new v). rewrite Hl. by left. }
  split; [done|]. split.
  - unfold has_node. rewrite existsb_app. simpl. rewrite Hid, String.eqb_refl.
    by rewrite orb_true_r.
  - split; [done|]. unfold sendPacket. rewrite Hn, Hnil. done.
Qed.

Lemma X19_witness :
  findPath ("N" +:+ pretty (length (nodes initialState) + 1)) "H1"
    (nodes (step initialState AddNode)) = [].
Proof.
  apply (X19_new_node_isolated initialState "H1" "" 0%N 0%N).
  - by exists [].
  - by vm_compute.
Defined.
